(** * canhta/til, the Go notes: a shallow embedding and its properties

    The repository holds one runnable program ([go/main.go]) and two
    tutorials whose snippets are Go code ([go/basic_syntax.md],
    [go/concurrency.md]).  Each snippet that a property below talks about
    is translated here into a Rocq definition that keeps the name it has in
    the source:

    - [GoInt]: Go's [int] (64 bits, two's complement, wrapping);
    - [Exec]: a state-and-panic monad for sequential Go code;
    - [Slices], [Fmt], [SliceProgram]: [go/main.go];
    - [Errors]: [f1], [argError], [f2] of [go/basic_syntax.md];
    - [Heap], [Generics]: [element], [List], [Push], [GetAll], and in
      [GenericsInv] the shape of a list in the heap;
    - [Closures]: [intSeq];
    - [WorkerPool]: the worker-pool program of [go/concurrency.md], and in
      [WorkerPoolInv] the invariant of its executions;
    - [SliceOps]: [make], [copy], [append] and [MapKeys];
    - [Functions]: [sum], [zeroval], [zeroptr], [newPerson], [rect],
      [base] and [container];
    - [GenericsUse]: programs with one and with two lists;
    - [WorkerPoolAccount]: where the jobs of the worker-pool program are;
    - [Chat], [WaitGroup], [Pool]: the chat program, the wait-group snippet
      and the request pool of [go/concurrency.md].

    The properties follow the definitions, one module per snippet. *)

From Stdlib Require Import ZArith NArith String Ascii DecimalString DecimalZ Lia.
From stdpp Require Import base option list gmap strings.

(** ** Go's [int] *)

Module GoInt.
Local Open Scope Z_scope.

(** [int] is 64 bits wide on the platforms Go is usually run on
    ([strconv.IntSize]). *)
Definition intSize : Z := 64.
Definition MaxInt : Z := 2 ^ (intSize - 1) - 1.
Definition MinInt : Z := - 2 ^ (intSize - 1).

Definition in_range (x : Z) : Prop := MinInt <= x <= MaxInt.

(** Signed overflow wraps around (Go specification, "Integer overflow"). *)
Definition wrap (x : Z) : Z :=
  (x - MinInt) mod 2 ^ intSize + MinInt.

Definition add (x y : Z) : Z := wrap (x + y).
Definition mul (x y : Z) : Z := wrap (x * y).

(** [%d] of package [fmt]: decimal digits, a leading [-] when negative. *)
Definition itoa (x : Z) : string := NilZero.string_of_int (Z.to_int x).

End GoInt.

(** ** Sequential Go code: state passing with panics *)

Module Exec.

Inductive outcome (A : Type) : Type :=
| Ok (a : A)
| Panic (msg : string).
Arguments Ok {A} a.
Arguments Panic {A} msg.

(** A computation over a state [S] either panics or returns a value and
    the next state. *)
Definition M (S A : Type) : Type := S -> outcome (A * S).

Definition ret {S A} (a : A) : M S A := fun s => Ok (a, s).

Definition bind {S A B} (m : M S A) (k : A -> M S B) : M S B :=
  fun s =>
    match m s with
    | Ok (a, s') => k a s'
    | Panic msg => Panic msg
    end.

(** A pure step that may panic. *)
Definition lift {S A} (o : outcome A) : M S A :=
  fun s =>
    match o with
    | Ok a => Ok (a, s)
    | Panic msg => Panic msg
    end.

Definition is_ok {A} (o : outcome A) : bool :=
  match o with Ok _ => true | Panic _ => false end.

Definition omap {A B} (f : A -> B) (o : outcome A) : outcome B :=
  match o with Ok a => Ok (f a) | Panic msg => Panic msg end.

Declare Scope go_scope.
Delimit Scope go_scope with go.
Notation "x <- m ;; k" := (bind m (fun x => k))
  (at level 100, m at next level, right associativity) : go_scope.
Notation "m ;;; k" := (bind m (fun _ => k))
  (at level 100, right associativity) : go_scope.

End Exec.

(** ** Slices *)

Module Slices.
Import Exec.
Local Open Scope Z_scope.

(** A slice value: a window of [len] elements, starting at [off], on a
    backing array, with [cap] elements available from [off] on. *)
Record slice (T : Type) : Type := mkSlice {
  array : list T;
  off : Z;
  len : Z;
  cap : Z
}.
Arguments mkSlice {T}.
Arguments array {T}.
Arguments off {T}.
Arguments len {T}.
Arguments cap {T}.

(** The elements a slice shows, in order. *)
Definition elems {T} (s : slice T) : list T :=
  take (Z.to_nat (len s)) (drop (Z.to_nat (off s)) (array s)).

(** The composite literal [[]T{x1, ..., xn}]. *)
Definition literal {T} (xs : list T) : slice T :=
  {| array := xs; off := 0;
     len := Z.of_nat (length xs); cap := Z.of_nat (length xs) |}.

(** The bounds of [s[low:high]]; a missing low bound is 0, a missing high
    bound is [len(s)]. *)
Definition bounds {T} (s : slice T) (low high : option Z) : Z * Z :=
  (default 0 low, default (len s) high).

(** For a slice operand the run-time check is
    [0 <= low <= high <= cap(s)]. *)
Definition in_bounds {T} (s : slice T) (b : Z * Z) : bool :=
  (0 <=? fst b) && (fst b <=? snd b) && (snd b <=? cap s).

(** The simple slice expression [s[low:high]]; out of range it panics. *)
Definition slice_expr {T} (s : slice T) (low high : option Z)
  : outcome (slice T) :=
  let b := bounds s low high in
  if in_bounds s b then
    Ok {| array := array s; off := off s + fst b;
          len := snd b - fst b; cap := cap s - fst b |}
  else Panic "runtime error: slice bounds out of range".

End Slices.

(** ** Package [fmt], as far as the program uses it *)

Module Fmt.
Import Exec Slices.

Definition newline : string := String "010"%char EmptyString.

(** [%v] of a [[]string]: the elements separated by spaces, in brackets. *)
Definition format_strings (xs : list string) : string :=
  ("[" ++ String.concat " " xs ++ "]")%string.

(** What a process can see and write. *)
Record process : Type := mkProcess {
  os_args : list string;
  os_environ : list string;
  stdin : string;
  stdout : string
}.

Definition write_stdout (text : string) : M process unit :=
  fun p => Ok (tt, {| os_args := os_args p; os_environ := os_environ p;
                      stdin := stdin p;
                      stdout := (stdout p ++ text)%string |}).

(** [fmt.Println(l)] for [l] of type [[]string]. *)
Definition Println (l : slice string) : M process unit :=
  write_stdout (format_strings (elems l) ++ newline)%string.

(** The lines of a text, each ended by a newline (a last line without one
    counts when it is not empty). *)
Fixpoint lines_from (cur text : string) : list string :=
  match text with
  | EmptyString => if String.eqb cur "" then [] else [cur]
  | String c rest =>
      if Ascii.eqb c "010"%char then cur :: lines_from "" rest
      else lines_from (cur ++ String c EmptyString)%string rest
  end.

Definition lines (text : string) : list string := lines_from "" text.

End Fmt.

(** ** [go/main.go] *)

Module SliceProgram.
Import Exec Slices Fmt.
Local Open Scope go_scope.

(** [s := []string{"a", "b", "c", "d", "e", "f"}] *)
Definition s : slice string :=
  literal ["a"; "b"; "c"; "d"; "e"; "f"]%string.

(** The three slice expressions of [main], in program order. *)
Definition expr1 : outcome (slice string) := slice_expr s (Some 2%Z) (Some 5%Z).
Definition expr2 : outcome (slice string) := slice_expr s None (Some 5%Z).
Definition expr3 : outcome (slice string) := slice_expr s (Some 2%Z) None.

Definition main : M process unit :=
  l <- lift expr1 ;;
  Println l ;;;
  l <- lift expr2 ;;
  Println l ;;;
  l <- lift expr3 ;;
  Println l.

(** A run of the program: the process starts with nothing written, and
    what it has written when [main] returns is the output. *)
Definition run (args environ : list string) (input : string)
  : outcome string :=
  omap (fun r => stdout (snd r))
       (main {| os_args := args; os_environ := environ;
                stdin := input; stdout := "" |}).

Definition expected_output : string :=
  ("[c d e]" ++ newline ++ "[a b c d e]" ++ newline
   ++ "[c d e f]" ++ newline)%string.

End SliceProgram.

(** ** Errors ([go/basic_syntax.md], section "Errors") *)

Module Errors.
Import GoInt.
Local Open Scope Z_scope.

(** [type argError struct { arg int; prob string }] *)
Record argError : Type := mkArgError {
  arg : Z;
  prob : string
}.

(** A value of the interface type [error]: [nil], or a dynamic type with
    its value.  The two dynamic types of the tutorial are the one
    [errors.New] returns and [*argError]; a pointer is represented by the
    struct it points to. *)
Inductive error : Type :=
| nil
| errorString (text : string)
| argErrorPtr (e : argError).

(** [errors.New(text)] *)
Definition New (text : string) : error := errorString text.

(** [fmt.Sprintf("%d - %s", n, s)] *)
Definition Sprintf_d_s (n : Z) (s : string) : string :=
  (itoa n ++ " - " ++ s)%string.

(** [func (e *argError) Error() string] *)
Definition argError_Error (e : argError) : string :=
  Sprintf_d_s (arg e) (prob e).

(** The method [Error()] of an [error] value, dispatched on its dynamic
    type; [nil] has no method to call. *)
Definition Error (e : error) : option string :=
  match e with
  | nil => None
  | errorString text => Some text
  | argErrorPtr a => Some (argError_Error a)
  end.

(** The type assertion of [e] to [*argError], in its two-result form. *)
Definition as_argError (e : error) : option argError :=
  match e with
  | argErrorPtr a => Some a
  | _ => None
  end.

Definition f1 (arg : Z) : Z * error :=
  if arg =? 42 then (-1, New "can't work with 42")
  else (add arg 3, nil).

Definition f2 (arg : Z) : Z * error :=
  if arg =? 42 then
    (-1, argErrorPtr {| arg := arg; prob := "can't work with it" |})
  else (add arg 3, nil).

End Errors.

(** ** A heap of cells addressed by pointers *)

Module Heap.
Import Exec.

Definition loc : Type := positive.

Section Cells.
Context {V : Type}.

(** [new]: a cell at an address that is not in use. *)
Definition alloc (v : V) : M (gmap loc V) loc :=
  fun h => let p := fresh (dom h) in Ok (p, <[p := v]> h).

Definition load (p : loc) : M (gmap loc V) V :=
  fun h =>
    match h !! p with
    | Some v => Ok (v, h)
    | None => Panic "invalid memory address or nil pointer dereference"
    end.

Definition store (p : loc) (v : V) : M (gmap loc V) unit :=
  fun h =>
    match h !! p with
    | Some _ => Ok (tt, <[p := v]> h)
    | None => Panic "invalid memory address or nil pointer dereference"
    end.

End Cells.
End Heap.

(** ** Generics ([go/basic_syntax.md]): the singly-linked [List[T]] *)

Module Generics.
Import Exec Heap.
Local Open Scope go_scope.

(** [type element[T any] struct { next *element[T]; val T }];
    the nil pointer is [None]. *)
Record element (T : Type) : Type := mkElement {
  next : option loc;
  val : T
}.
Arguments mkElement {T}.
Arguments next {T}.
Arguments val {T}.

(** [type List[T any] struct { head, tail *element[T] }] *)
Record List (T : Type) : Type := mkList {
  head : option loc;
  tail : option loc
}.
Arguments mkList {T}.
Arguments head {T}.
Arguments tail {T}.

Section ListT.
Context {T : Type}.

(** [List[T]{}] *)
Definition empty : List T := {| head := None; tail := None |}.

(** [func (lst *List[T]) Push(v T)]; the receiver is passed in and the
    updated receiver is returned, the elements live in the heap. *)
Definition Push (lst : List T) (v : T) : M (gmap loc (element T)) (List T) :=
  match tail lst with
  | None =>
      p <- alloc {| next := None; val := v |} ;;
      let lst1 : List T := {| head := Some p; tail := tail lst |} in
      ret {| head := head lst1; tail := head lst1 |}
  | Some t =>
      p <- alloc {| next := None; val := v |} ;;
      e <- load t ;;
      store t {| next := Some p; val := val e |} ;;;
      e' <- load t ;;
      ret {| head := head lst; tail := next e' |}
  end.

(** The loop of [GetAll]: [for e := lst.head; e != nil; e = e.next].
    [fuel] bounds the number of iterations; the result is [None] when the
    bound is reached. *)
Fixpoint GetAll_loop (fuel : nat) (h : gmap loc (element T))
    (e : option loc) (elems : list T) : option (outcome (list T)) :=
  match e with
  | None => Some (Ok elems)
  | Some p =>
      match fuel with
      | O => None
      | S fuel' =>
          match h !! p with
          | None =>
              Some (Panic "invalid memory address or nil pointer dereference")
          | Some c => GetAll_loop fuel' h (next c) (elems ++ [val c])
          end
      end
  end.

(** [func (lst *List[T]) GetAll() []T].  A walk that has not ended after
    as many steps as the heap has cells is on a cycle and never ends. *)
Definition GetAll (lst : List T) : M (gmap loc (element T)) (list T) :=
  fun h =>
    match GetAll_loop (size h) h (head lst) [] with
    | Some (Ok elems) => Ok (elems, h)
    | Some (Panic msg) => Panic msg
    | None => Panic "GetAll does not return"
    end.

(** [lst.Push(v1); ...; lst.Push(vn)] *)
Fixpoint PushAll (lst : List T) (vs : list T)
  : M (gmap loc (element T)) (List T) :=
  match vs with
  | [] => ret lst
  | v :: vs' => lst' <- Push lst v ;; PushAll lst' vs'
  end.

(** [lst := List[T]{}; lst.Push(v1); ...; lst.Push(vn); lst.GetAll()] *)
Definition push_then_GetAll (vs : list T)
  : M (gmap loc (element T)) (list T) :=
  lst <- PushAll empty vs ;; GetAll lst.

End ListT.

End Generics.

(** ** What a well-formed [List[T]] looks like in the heap *)

Module GenericsInv.
Import Exec Heap Generics.

Section ListT.
Context {T : Type}.
Implicit Types (h : gmap loc (element T)) (lst : List T) (vs : list T).
Implicit Types (cells : list (loc * T)).

(** [chain h start cells stop]: following [next] from [start] goes through
    the addresses of [cells], which hold the values of [cells], and ends
    with [stop]. *)
Fixpoint chain h (start : option loc) cells (stop : option loc) : Prop :=
  match cells with
  | [] => start = stop
  | (p, v) :: rest =>
      start = Some p /\
      exists nxt, h !! p = Some {| next := nxt; val := v |} /\
                  chain h nxt rest stop
  end.

(** The list [lst] holds [vs]: its elements are pairwise distinct cells
    chained from [head] to nil, and [tail] is the last of them. *)
Definition is_list h lst vs : Prop :=
  exists cells,
    cells.*2 = vs /\ NoDup cells.*1 /\
    chain h (head lst) cells None /\ tail lst = last cells.*1.

End ListT.
End GenericsInv.

(** ** Closures ([go/basic_syntax.md]): [intSeq] *)

Module Closures.
Import Exec Heap GoInt.
Local Open Scope go_scope.

(** The function value [intSeq] returns: its code is fixed, what differs
    from one value to the next is the variable [i] it has captured. *)
Record closure : Type := mkClosure { i : loc }.

(** [i := 0; return func() int { ... }] *)
Definition intSeq : M (gmap loc Z) closure :=
  p <- alloc 0%Z ;;
  ret {| i := p |}.

(** A call of the returned function: [i++; return i]. *)
Definition call (f : closure) : M (gmap loc Z) Z :=
  v <- load (i f) ;;
  store (i f) (add v 1) ;;;
  load (i f).

(** [k] calls in a row, results dropped. *)
Definition repeat_calls (f : closure) (k : N) : M (gmap loc Z) unit :=
  N.iter k (fun m => call f ;;; m) (ret tt).

(** The result of the [n]-th call of [f] ([n] counted from 1), the calls
    before it having been made. *)
Definition nth_call (f : closure) (n : N) : M (gmap loc Z) Z :=
  repeat_calls f (N.pred n) ;;; call f.

(** [nextInt := intSeq()] and then [n] calls of [nextInt]. *)
Definition fresh_nth_call (n : N) : M (gmap loc Z) Z :=
  nextInt <- intSeq ;; nth_call nextInt n.

(** Calls of two function values in any order: [true] calls [f], [false]
    calls [g]; the results are collected in call order. *)
Fixpoint calls (f g : closure) (sched : list bool) : M (gmap loc Z) (list Z) :=
  match sched with
  | [] => ret []
  | b :: sched' =>
      r <- call (if b then f else g) ;;
      rs <- calls f g sched' ;;
      ret (r :: rs)
  end.

(** [nextInt := intSeq(); newInts := intSeq()] and calls of the two. *)
Definition two_counters (sched : list bool) : M (gmap loc Z) (list Z) :=
  nextInt <- intSeq ;;
  newInts <- intSeq ;;
  calls nextInt newInts sched.

(** What independent counters give for a schedule: each call returns the
    number of calls made so far to the same function value. *)
Fixpoint tally (nf ng : Z) (sched : list bool) : list Z :=
  match sched with
  | [] => []
  | true :: sched' => (nf + 1)%Z :: tally (nf + 1)%Z ng sched'
  | false :: sched' => (ng + 1)%Z :: tally nf (ng + 1)%Z sched'
  end.

End Closures.

(** ** Worker pools ([go/concurrency.md]) *)

Module WorkerPool.
Import GoInt.
Local Open Scope Z_scope.

(** The two package-level channels. *)
Inductive chan_name : Type := jobs | results.

(** A buffered [chan int]: the queued values, oldest first, the buffer
    size given to [make], and whether it has been closed. *)
Record chan : Type := mkChan {
  buf : list Z;
  capacity : nat;
  closed : bool
}.

(** [make(chan int, n)] *)
Definition make (n : nat) : chan :=
  {| buf := []; capacity := n; closed := false |}.

Inductive send_result : Type :=
| Sent (c : chan)
| SendBlocks
| SendPanics.

(** [c <- v]: panics on a closed channel, waits while the buffer is full. *)
Definition send (c : chan) (v : Z) : send_result :=
  if closed c then SendPanics
  else if (length (buf c) <? capacity c)%nat then
    Sent {| buf := buf c ++ [v]; capacity := capacity c; closed := closed c |}
  else SendBlocks.

Inductive recv_result : Type :=
| Received (v : Z) (ok : bool) (c : chan)
| RecvBlocks.

(** [v, ok := <-c]: queued values are delivered also after [close]; an
    empty closed channel gives the zero value and [ok = false]; an empty
    open channel makes the receiver wait. *)
Definition recv (c : chan) : recv_result :=
  match buf c with
  | v :: rest =>
      Received v true {| buf := rest; capacity := capacity c; closed := closed c |}
  | [] => if closed c then Received 0 false c else RecvBlocks
  end.

Inductive close_result : Type :=
| Closed (c : chan)
| ClosePanics.

(** [close(c)]: panics when [c] is closed already. *)
Definition close (c : chan) : close_result :=
  if closed c then ClosePanics
  else Closed {| buf := buf c; capacity := capacity c; closed := true |}.

(** What an observer of the program sees, one event per step. *)
Inductive event : Type :=
| EvGo (id : Z)
| EvSend (c : chan_name) (v : Z)
| EvRecv (c : chan_name) (v : Z) (ok : bool)
| EvClose (c : chan_name)
| EvPrint (line : string)
| EvLoopExit
| EvPanic (msg : string).

(** Where [main] is: at the head of its first loop with [i], of its second
    loop with [i], at [close(jobs)], at the head of its third loop with [i],
    at the [Println] of that loop with [i] and [result], or returned. *)
Inductive main_pc : Type :=
| MGo (i : Z)
| MSend (i : Z)
| MClose
| MRecv (i : Z)
| MPrint (i : Z) (result : Z)
| MReturned.

(** Where a worker is: at [for job := range jobs], at
    [results <- job * 2] with [job], or returned. *)
Inductive worker_pc : Type :=
| WRange
| WSend (job : Z)
| WReturned.

Inductive goroutine : Type :=
| GMain
| GWorker (id : Z).

Record state : Type := mkState {
  jobs_chan : chan;
  results_chan : chan;
  main_at : main_pc;
  workers : gmap Z worker_pc;
  panicked : bool
}.

Definition numWorkers : Z := 3.

(** [var jobs = make(chan int, 10)], [var results = make(chan int, 10)],
    and [main] about to start. *)
Definition init : state :=
  {| jobs_chan := make 10; results_chan := make 10;
     main_at := MGo 1; workers := ∅; panicked := false |}.

Definition set_main (st : state) (pc : main_pc) : state :=
  {| jobs_chan := jobs_chan st; results_chan := results_chan st;
     main_at := pc; workers := workers st; panicked := panicked st |}.

Definition set_jobs (st : state) (c : chan) : state :=
  {| jobs_chan := c; results_chan := results_chan st;
     main_at := main_at st; workers := workers st; panicked := panicked st |}.

Definition set_results (st : state) (c : chan) : state :=
  {| jobs_chan := jobs_chan st; results_chan := c;
     main_at := main_at st; workers := workers st; panicked := panicked st |}.

Definition set_worker (st : state) (id : Z) (pc : worker_pc) : state :=
  {| jobs_chan := jobs_chan st; results_chan := results_chan st;
     main_at := main_at st; workers := <[id := pc]> (workers st);
     panicked := panicked st |}.

Definition set_panicked (st : state) : state :=
  {| jobs_chan := jobs_chan st; results_chan := results_chan st;
     main_at := main_at st; workers := workers st; panicked := true |}.

(** [fmt.Println("Result:", result)] *)
Definition result_line (result : Z) : string :=
  ("Result: " ++ itoa result)%string.

(** One step of [main]; [None] when it has to wait or has returned. *)
Definition step_main (st : state) : option (event * state) :=
  match main_at st with
  | MGo i =>
      if i <=? numWorkers then
        Some (EvGo i, set_main (set_worker st i WRange) (MGo (add i 1)))
      else Some (EvLoopExit, set_main st (MSend 1))
  | MSend i =>
      if i <=? 5 then
        match send (jobs_chan st) i with
        | Sent c => Some (EvSend jobs i, set_main (set_jobs st c) (MSend (add i 1)))
        | SendBlocks => None
        | SendPanics =>
            Some (EvPanic "send on closed channel", set_panicked st)
        end
      else Some (EvLoopExit, set_main st MClose)
  | MClose =>
      match close (jobs_chan st) with
      | Closed c => Some (EvClose jobs, set_main (set_jobs st c) (MRecv 1))
      | ClosePanics =>
          Some (EvPanic "close of closed channel", set_panicked st)
      end
  | MRecv i =>
      if i <=? 5 then
        match recv (results_chan st) with
        | Received v ok c =>
            Some (EvRecv results v ok, set_main (set_results st c) (MPrint i v))
        | RecvBlocks => None
        end
      else Some (EvLoopExit, set_main st MReturned)
  | MPrint i result =>
      Some (EvPrint (result_line result), set_main st (MRecv (add i 1)))
  | MReturned => None
  end.

(** One step of [worker(id)]; [None] when it has not been started, has to
    wait or has returned. *)
Definition step_worker (id : Z) (st : state) : option (event * state) :=
  match workers st !! id with
  | Some WRange =>
      match recv (jobs_chan st) with
      | Received job true c =>
          Some (EvRecv jobs job true, set_worker (set_jobs st c) id (WSend job))
      | Received job false c =>
          Some (EvRecv jobs job false, set_worker (set_jobs st c) id WReturned)
      | RecvBlocks => None
      end
  | Some (WSend job) =>
      match send (results_chan st) (mul job 2) with
      | Sent c =>
          Some (EvSend results (mul job 2),
                set_worker (set_results st c) id WRange)
      | SendBlocks => None
      | SendPanics =>
          Some (EvPanic "send on closed channel", set_panicked st)
      end
  | Some WReturned => None
  | None => None
  end.

(** The program is over when [main] has returned or a goroutine has
    panicked; until then any goroutine that can step may be the next. *)
Definition halted (st : state) : bool :=
  panicked st ||
  match main_at st with MReturned => true | _ => false end.

Definition step (g : goroutine) (st : state) : option (event * state) :=
  if halted st then None
  else match g with
       | GMain => step_main st
       | GWorker id => step_worker id st
       end.

(** An execution under a schedule: the goroutine named next takes a step
    when it can, and is passed over when it cannot. *)
Fixpoint run_from (st : state) (sched : list goroutine)
  : list event * state :=
  match sched with
  | [] => ([], st)
  | g :: sched' =>
      match step g st with
      | Some (e, st') =>
          let '(tr, fin) := run_from st' sched' in (e :: tr, fin)
      | None => run_from st sched'
      end
  end.

Definition run (sched : list goroutine) : list event * state :=
  run_from init sched.

(** Trace properties. *)

Definition is_send_on (c : chan_name) (e : event) : bool :=
  match e, c with
  | EvSend jobs _, jobs => true
  | EvSend results _, results => true
  | _, _ => false
  end.

Definition is_close_of (c : chan_name) (e : event) : bool :=
  match e, c with
  | EvClose jobs, jobs => true
  | EvClose results, results => true
  | _, _ => false
  end.

Definition is_panic (e : event) : bool :=
  match e with EvPanic _ => true | _ => false end.

(** No send on [c] after the first [close(c)] of the trace. *)
Fixpoint no_send_after_close (c : chan_name) (tr : list event) : bool :=
  match tr with
  | [] => true
  | e :: tr' =>
      if is_close_of c e then forallb (fun e' => negb (is_send_on c e')) tr'
      else no_send_after_close c tr'
  end.

(** The values sent on [c] before the first [close(c)] of the trace. *)
Fixpoint sent_before_close (c : chan_name) (tr : list event) : list Z :=
  match tr with
  | [] => []
  | e :: tr' =>
      if is_close_of c e then []
      else match e with
           | EvSend c' v =>
               if is_send_on c e then v :: sent_before_close c tr'
               else sent_before_close c tr'
           | _ => sent_before_close c tr'
           end
  end.

Definition closes (c : chan_name) (tr : list event) : bool :=
  existsb (is_close_of c) tr.

(** The schedule that lets each goroutine run as long as it can, [main]
    first: used to show the program running to its end. *)
Definition main_first : list goroutine :=
  repeat GMain 11 ++
  flat_map (fun id => repeat (GWorker id) 4) [1; 2; 3] ++
  repeat GMain 12.

End WorkerPool.

(** ** What holds of every state of the worker-pool program *)

Module WorkerPoolInv.
Import GoInt WorkerPool.
Local Open Scope Z_scope.

(** What happens on channel [c]: its sends and its close. *)
Definition on_chan (c : chan_name) (e : event) : bool :=
  is_send_on c e || is_close_of c e.

(** Everything that can ever happen on [jobs], in order. *)
Definition jobs_script : list event :=
  [EvSend jobs 1; EvSend jobs 2; EvSend jobs 3; EvSend jobs 4; EvSend jobs 5;
   EvClose jobs].

(** How far [main] has come in that script. *)
Definition progress (pc : main_pc) : nat :=
  match pc with
  | MGo _ => 0
  | MSend i => Z.to_nat (i - 1)
  | MClose => 5
  | MRecv _ | MPrint _ _ | MReturned => 6
  end.

(** [close(jobs)] is behind [main] from its third loop on. *)
Definition after_close (pc : main_pc) : bool :=
  match pc with
  | MGo _ | MSend _ | MClose => false
  | MRecv _ | MPrint _ _ | MReturned => true
  end.

(** The invariant of every execution, [past] being the trace so far. *)
Record Inv (st : state) (past : list event) : Prop := mkInv {
  inv_not_panicked : panicked st = false;
  inv_results_open : closed (results_chan st) = false;
  inv_no_panic_event : existsb is_panic past = false;
  inv_jobs_closed : closed (jobs_chan st) = after_close (main_at st);
  inv_send_range : match main_at st with
                   | MSend i => 1 <= i <= 6
                   | _ => True
                   end;
  inv_log : List.filter (on_chan jobs) past
            = take (progress (main_at st)) jobs_script
}.

End WorkerPoolInv.

(** ** Slices: [make], [copy], [append] ([go/basic_syntax.md], "Slice") *)

Module SliceOps.
Import Exec GoInt Slices.
Local Open Scope Z_scope.

(** What every slice value of a running program satisfies: its window and
    its capacity lie inside the backing array. *)
Definition well_formed {T} (s : slice T) : Prop :=
  0 <= off s /\ 0 <= len s <= cap s /\
  off s + cap s <= Z.of_nat (length (array s)).

(** [make([]T, n, c)]: a fresh backing array of [c] zero values. *)
Definition make {T} (zero : T) (n c : Z) : outcome (slice T) :=
  if n <? 0 then Panic "runtime error: makeslice: len out of range"
  else if c <? n then Panic "runtime error: makeslice: cap out of range"
  else Ok {| array := replicate (Z.to_nat c) zero; off := 0;
             len := n; cap := c |}.

(** [copy(dst, src)]: the first [min(len(dst), len(src))] elements of [src]
    overwrite those of [dst]; the number copied is returned, with [dst] as
    it is afterwards. *)
Definition copy {T} (dst src : slice T) : slice T * Z :=
  let n := Z.min (len dst) (len src) in
  let o := Z.to_nat (off dst) in
  let k := Z.to_nat n in
  ({| array := take o (array dst) ++ take k (elems src)
               ++ drop (o + k) (array dst);
      off := off dst; len := len dst; cap := cap dst |}, n).

(** The growing idiom of the tutorial:
    [t := make([]byte, len(s), (cap(s)+1)*2); copy(t, s); s = t]. *)
Definition grow {T} (zero : T) (s : slice T) : outcome (slice T) :=
  match make zero (len s) (mul (add (cap s) 1) 2) with
  | Ok t => Ok (fst (copy t s))
  | Panic msg => Panic msg
  end.

Section Append.
Context {T : Type}.

(** The zero value of [T], and the capacity the runtime chooses when
    [append] has to move a slice of capacity [old] to hold [need]
    elements; the choice is the runtime's, not the program's. *)
Variable zero : T.
Variable growcap : Z -> Z -> Z.

(** [append(s, x1, ..., xn)]: in place when the capacity allows, else into
    a new backing array. *)
Definition append (s : slice T) (xs : list T) : slice T :=
  let need := len s + Z.of_nat (length xs) in
  if need <=? cap s then
    let o := Z.to_nat (off s + len s) in
    {| array := take o (array s) ++ xs ++ drop (o + length xs) (array s);
       off := off s; len := need; cap := cap s |}
  else
    let c := growcap (cap s) need in
    {| array := elems s ++ xs ++ replicate (Z.to_nat (c - need)) zero;
       off := 0; len := need; cap := c |}.

(** [func MapKeys[K comparable, V any](m map[K]V) []K]; [order] is the
    order in which [range] visits the keys of [m] in this run. *)
Definition MapKeys `{Countable T} {V} (order : list T) (m : gmap T V)
  : outcome (slice T) :=
  match make zero 0 (Z.of_nat (size m)) with
  | Ok r => Ok (fold_left (fun r k => append r [k]) order r)
  | Panic msg => Panic msg
  end.

End Append.

End SliceOps.

(** ** Functions, pointers, structs and methods ([go/basic_syntax.md]) *)

Module Functions.
Import Exec GoInt Heap Fmt.
Local Open Scope go_scope.

(** [func sum(nums ...int)]: the arguments arrive as one slice, given here
    by its elements.  [fmt.Println] puts a space between its operands. *)
Definition sum (nums : list Z) : M process unit :=
  let total := fold_left (fun total num => add total num) nums 0%Z in
  write_stdout ("len: " ++ itoa (Z.of_nat (length nums))
                ++ " total: " ++ itoa total ++ newline)%string.

(** Whether a text is free of spaces. *)
Fixpoint no_space (s : string) : bool :=
  match s with
  | EmptyString => true
  | String c rest => negb (Ascii.eqb c " ") && no_space rest
  end.

(** The sum of a list of integers, without bound. *)
Definition sum_Z (nums : list Z) : Z := foldr Z.add 0%Z nums.

(** [func zeroval(ival int) { ival = 0 }]: the parameter is a variable of
    its own, set up with the argument. *)
Definition zeroval (ival : Z) : M (gmap loc Z) unit :=
  p <- alloc ival ;;
  store p 0%Z.

(** [func zeroptr(iptr *int) { *iptr = 0 }]; the nil pointer is [None]. *)
Definition zeroptr (iptr : option loc) : M (gmap loc Z) unit :=
  match iptr with
  | Some p => store p 0%Z
  | None =>
      fun _ => Panic "invalid memory address or nil pointer dereference"
  end.

(** [type person struct { name string; age int }] *)
Record person : Type := mkPerson {
  name : string;
  age : Z
}.

(** [func newPerson(name string) *person]: [p := person{name: name}],
    [p.age = 42], [return &p]. *)
Definition newPerson (name : string) : M (gmap loc person) loc :=
  p <- alloc {| name := name; age := 0 |} ;;
  v <- load p ;;
  store p {| name := Functions.name v; age := 42 |} ;;;
  ret p.

(** [type rect struct { width, height int }] *)
Record rect : Type := mkRect {
  width : Z;
  height : Z
}.

(** [func (r *rect) area() int] *)
Definition area (r : option loc) : M (gmap loc rect) Z :=
  match r with
  | Some p => v <- load p ;; ret (mul (width v) (height v))
  | None =>
      fun _ => Panic "invalid memory address or nil pointer dereference"
  end.

(** [func (r rect) perim() int] *)
Definition perim (r : rect) : Z :=
  add (mul 2 (width r)) (mul 2 (height r)).

(** [type base struct { num int }] *)
Record base : Type := mkBase { num : Z }.

(** [func (b base) describe() string]; [%v] of an [int] is its decimal. *)
Definition describe (b : base) : string :=
  ("base with num=" ++ itoa (num b))%string.

(** [type container struct { base; str string }] *)
Record container : Type := mkContainer {
  container_base : base;
  str : string
}.

(** The promoted field [co.num] and the promoted method [co.describe()]. *)
Definition container_num (co : container) : Z := num (container_base co).
Definition container_describe (co : container) : string :=
  describe (container_base co).

End Functions.

(** ** Several uses of [List[T]] in one program *)

Module GenericsUse.
Import Exec Heap Generics GenericsInv.
Local Open Scope go_scope.

Section ListT.
Context {T : Type}.

(** [lst.Push(...)] for [vs], [a := lst.GetAll()], [lst.Push(...)] for
    [ws], [b := lst.GetAll()], on a list that starts empty. *)
Definition push_get_push_get (vs ws : list T)
  : M (gmap loc (element T)) (list T * list T) :=
  lst1 <- PushAll empty vs ;;
  a <- GetAll lst1 ;;
  lst2 <- PushAll lst1 ws ;;
  b <- GetAll lst2 ;;
  ret (a, b).

(** Pushes on two lists in any order: [(true, v)] is [la.Push(v)],
    [(false, v)] is [lb.Push(v)]. *)
Fixpoint push_both (la lb : List T) (sched : list (bool * T))
  : M (gmap loc (element T)) (List T * List T) :=
  match sched with
  | [] => ret (la, lb)
  | (true, v) :: sched' => la' <- Push la v ;; push_both la' lb sched'
  | (false, v) :: sched' => lb' <- Push lb v ;; push_both la lb' sched'
  end.

(** Two lists that start empty, pushes on them in any order, and then
    [GetAll] of each. *)
Definition two_lists (sched : list (bool * T))
  : M (gmap loc (element T)) (list T * list T) :=
  ls <- push_both empty empty sched ;;
  a <- GetAll (fst ls) ;;
  b <- GetAll (snd ls) ;;
  ret (a, b).

(** The values pushed on the list with flag [b], in push order. *)
Definition pushed_on (b : bool) (sched : list (bool * T)) : list T :=
  base.omap (fun bv => if Bool.eqb (fst bv) b then Some (snd bv) else None)
    sched.

(** As [is_list], with the cells named. *)
Definition is_list_with (h : gmap loc (element T)) (lst : List T)
    (cells : list (loc * T)) : Prop :=
  NoDup cells.*1 /\ chain h (head lst) cells None /\
  tail lst = last cells.*1.

(** What holds of two lists that share a heap and no cell. *)
Definition apart (h : gmap loc (element T)) (la lb : List T)
    (ca cb : list (loc * T)) : Prop :=
  is_list_with h la ca /\ is_list_with h lb cb /\
  (forall q, q ∈ ca.*1 -> q ∉ cb.*1).

End ListT.
End GenericsUse.

(** ** The worker-pool program: where every job is *)

Module WorkerPoolAccount.
Import GoInt WorkerPool WorkerPoolInv.
Local Open Scope Z_scope.

(** [job * 2] *)
Definition dbl (job : Z) : Z := mul job 2.

(** The job a worker holds between its receive and its send. *)
Definition job_held (kv : Z * worker_pc) : option Z :=
  match snd kv with
  | WSend job => Some job
  | _ => None
  end.

Definition held (ws : gmap Z worker_pc) : list Z :=
  omap job_held (map_to_list ws).

(** The workers that have not returned. *)
Definition worker_live (kv : Z * worker_pc) : option Z :=
  match snd kv with
  | WReturned => None
  | _ => Some (fst kv)
  end.

Definition live (ws : gmap Z worker_pc) : list Z :=
  omap worker_live (map_to_list ws).

(** The values [main] has received from [results], in order. *)
Definition result_received (e : event) : option Z :=
  match e with
  | EvRecv results v true => Some v
  | _ => None
  end.

Definition received (tr : list event) : list Z := omap result_received tr.

(** The lines printed, in order. *)
Definition line_printed (e : event) : option string :=
  match e with
  | EvPrint line => Some line
  | _ => None
  end.

Definition printed (tr : list event) : list string := omap line_printed tr.

(** The jobs [main] has sent when it is at [pc]. *)
Definition sent_jobs (pc : main_pc) : list Z :=
  take (progress pc) [1; 2; 3; 4; 5].

(** The result [main] has received and not yet printed. *)
Definition unprinted (pc : main_pc) : list Z :=
  match pc with
  | MPrint _ result => [result]
  | _ => []
  end.

(** How many results [main] has received when it is at [pc]. *)
Definition received_count (pc : main_pc) : nat :=
  match pc with
  | MGo _ | MSend _ | MClose => 0
  | MRecv i => Z.to_nat (i - 1)
  | MPrint i _ => Z.to_nat i
  | MReturned => 5
  end.

(** The workers started are those with an id below this. *)
Definition spawned_below (pc : main_pc) : Z :=
  match pc with
  | MGo i => i
  | _ => numWorkers + 1
  end.

(** The steps [main] has left to its return. *)
Definition main_left (pc : main_pc) : nat :=
  match pc with
  | MGo i => Z.to_nat (5 - i) + 18
  | MSend i => Z.to_nat (7 - i) + 12
  | MClose => 12
  | MRecv i => 2 * Z.to_nat (6 - i) + 1
  | MPrint i _ => 2 * Z.to_nat (6 - i)
  | MReturned => 0
  end.

(** A bound on the steps the whole program has left: those of [main], two
    for each job not yet taken by a worker, one for each job a worker
    holds, and the return of each worker. *)
Definition steps_left (st : state) : nat :=
  main_left (main_at st)
  + 2 * (5 - length (sent_jobs (main_at st)))
  + 2 * length (buf (jobs_chan st))
  + length (held (workers st))
  + length (live (workers st))
  + Z.to_nat (numWorkers + 1 - spawned_below (main_at st)).

(** The invariant of every execution, [past] being the trace so far. *)
Record Account (st : state) (past : list event) : Prop := mkAccount {
  acc_base : Inv st past;
  acc_caps : capacity (jobs_chan st) = 10%nat /\
             capacity (results_chan st) = 10%nat;
  acc_balance :
    (dbl <$> buf (jobs_chan st)) ++ (dbl <$> held (workers st))
    ++ buf (results_chan st) ++ received past
    ≡ₚ dbl <$> sent_jobs (main_at st);
  acc_count : length (received past) = received_count (main_at st);
  acc_range : match main_at st with
              | MGo i => 1 <= i <= 4
              | MRecv i => 1 <= i <= 6
              | MPrint i _ => 1 <= i <= 5
              | _ => True
              end;
  acc_printed : result_line <$> received past
                = printed past ++ (result_line <$> unprinted (main_at st));
  acc_spawned : forall k, is_Some (workers st !! k) <->
                          1 <= k < spawned_below (main_at st);
  acc_returned : forall id, workers st !! id = Some WReturned ->
                   buf (jobs_chan st) = [] /\ after_close (main_at st) = true;
  acc_steps : (length past + steps_left st <= 35)%nat
}.

End WorkerPoolAccount.

(** ** The chat program ([go/concurrency.md], "Goroutines and Channels") *)

Module Chat.
Import GoInt.
Local Open Scope Z_scope.

(** [type Message struct { User string; Content string }] *)
Record Message : Type := mkMessage {
  User : string;
  Content : string
}.

(** A buffered [chan Message]. *)
Record chan : Type := mkChan {
  buf : list Message;
  capacity : nat;
  closed : bool
}.

Definition make (n : nat) : chan :=
  {| buf := []; capacity := n; closed := false |}.

Inductive send_result : Type :=
| Sent (c : chan)
| SendBlocks
| SendPanics.

Definition send (c : chan) (m : Message) : send_result :=
  if closed c then SendPanics
  else if (length (buf c) <? capacity c)%nat then
    Sent {| buf := buf c ++ [m]; capacity := capacity c; closed := closed c |}
  else SendBlocks.

Inductive recv_result : Type :=
| Received (m : option Message) (c : chan)
| RecvBlocks.

(** [m, ok := <-c]; [None] stands for the zero value with [ok = false]. *)
Definition recv (c : chan) : recv_result :=
  match buf c with
  | m :: rest =>
      Received (Some m)
        {| buf := rest; capacity := capacity c; closed := closed c |}
  | [] => if closed c then Received None c else RecvBlocks
  end.

Inductive close_result : Type :=
| Closed (c : chan)
| ClosePanics.

Definition close (c : chan) : close_result :=
  if closed c then ClosePanics
  else Closed {| buf := buf c; capacity := capacity c; closed := true |}.

(** [user := fmt.Sprintf("User%d", i)],
    [content := fmt.Sprintf("Hello from %s!", user)],
    [Message{User: user, Content: content}]. *)
Definition message (i : Z) : Message :=
  let user := ("User" ++ itoa i)%string in
  let content := ("Hello from " ++ user ++ "!")%string in
  {| User := user; Content := content |}.

(** [fmt.Printf("Received message from %s: %s\n", msg.User, msg.Content)] *)
Definition received_line (msg : Message) : string :=
  ("Received message from " ++ User msg ++ ": " ++ Content msg
   ++ String "010"%char EmptyString)%string.

Inductive event : Type :=
| EvGoConsumer
| EvGoProducer
| EvSend (m : Message)
| EvRecv (m : option Message)
| EvClose
| EvPrint (text : string)
| EvSleep
| EvLoopExit
| EvPanic (msg : string).

(** [main] after [messages := make(chan Message, 100)]: at
    [go processMessages(messages)], at [go func() {...}()], or at
    [select {}], where it waits for ever. *)
Inductive main_pc : Type :=
| MGoConsumer
| MGoProducer
| MSelect.

(** The goroutine that sends: at the head of its loop with [i], at
    [time.Sleep] with [i], at [close(messages)], or returned. *)
Inductive producer_pc : Type :=
| PSend (i : Z)
| PSleep (i : Z)
| PClose
| PReturned.

(** [processMessages]: at [for msg := range messages], at [fmt.Printf]
    with [msg], or returned. *)
Inductive consumer_pc : Type :=
| CRange
| CPrint (msg : Message)
| CReturned.

Inductive goroutine : Type :=
| GMain
| GProducer
| GConsumer.

(** A goroutine that has not been started is [None]. *)
Record state : Type := mkState {
  messages : chan;
  main_at : main_pc;
  producer : option producer_pc;
  consumer : option consumer_pc;
  panicked : bool
}.

Definition init : state :=
  {| messages := make 100; main_at := MGoConsumer;
     producer := None; consumer := None; panicked := false |}.

Definition step_main (st : state) : option (event * state) :=
  match main_at st with
  | MGoConsumer =>
      Some (EvGoConsumer,
            {| messages := messages st; main_at := MGoProducer;
               producer := producer st; consumer := Some CRange;
               panicked := panicked st |})
  | MGoProducer =>
      Some (EvGoProducer,
            {| messages := messages st; main_at := MSelect;
               producer := Some (PSend 1); consumer := consumer st;
               panicked := panicked st |})
  | MSelect => None
  end.

Definition set_producer (st : state) (c : chan) (pc : producer_pc) : state :=
  {| messages := c; main_at := main_at st; producer := Some pc;
     consumer := consumer st; panicked := panicked st |}.

Definition set_consumer (st : state) (c : chan) (pc : consumer_pc) : state :=
  {| messages := c; main_at := main_at st; producer := producer st;
     consumer := Some pc; panicked := panicked st |}.

Definition set_panicked (st : state) : state :=
  {| messages := messages st; main_at := main_at st;
     producer := producer st; consumer := consumer st; panicked := true |}.

Definition step_producer (st : state) : option (event * state) :=
  match producer st with
  | Some (PSend i) =>
      if i <=? 10 then
        match send (messages st) (message i) with
        | Sent c => Some (EvSend (message i), set_producer st c (PSleep i))
        | SendBlocks => None
        | SendPanics =>
            Some (EvPanic "send on closed channel", set_panicked st)
        end
      else Some (EvLoopExit, set_producer st (messages st) PClose)
  | Some (PSleep i) =>
      Some (EvSleep, set_producer st (messages st) (PSend (add i 1)))
  | Some PClose =>
      match close (messages st) with
      | Closed c => Some (EvClose, set_producer st c PReturned)
      | ClosePanics =>
          Some (EvPanic "close of closed channel", set_panicked st)
      end
  | Some PReturned => None
  | None => None
  end.

Definition step_consumer (st : state) : option (event * state) :=
  match consumer st with
  | Some CRange =>
      match recv (messages st) with
      | Received (Some m) c => Some (EvRecv (Some m), set_consumer st c (CPrint m))
      | Received None c => Some (EvRecv None, set_consumer st c CReturned)
      | RecvBlocks => None
      end
  | Some (CPrint msg) =>
      Some (EvPrint (received_line msg), set_consumer st (messages st) CRange)
  | Some CReturned => None
  | None => None
  end.

(** [main] never returns; the program goes on until a goroutine panics. *)
Definition step (g : goroutine) (st : state) : option (event * state) :=
  if panicked st then None
  else match g with
       | GMain => step_main st
       | GProducer => step_producer st
       | GConsumer => step_consumer st
       end.

Fixpoint run_from (st : state) (sched : list goroutine)
  : list event * state :=
  match sched with
  | [] => ([], st)
  | g :: sched' =>
      match step g st with
      | Some (e, st') =>
          let '(tr, fin) := run_from st' sched' in (e :: tr, fin)
      | None => run_from st sched'
      end
  end.

Definition run (sched : list goroutine) : list event * state :=
  run_from init sched.

(** The lines printed, in order. *)
Definition line_printed (e : event) : option string :=
  match e with
  | EvPrint text => Some text
  | _ => None
  end.

Definition printed (tr : list event) : list string := omap line_printed tr.

Definition is_send (e : event) : bool :=
  match e with EvSend _ => true | _ => false end.

Definition is_close (e : event) : bool :=
  match e with EvClose => true | _ => false end.

Definition is_panic (e : event) : bool :=
  match e with EvPanic _ => true | _ => false end.

(** No send after the first [close(messages)] of the trace. *)
Fixpoint no_send_after_close (tr : list event) : bool :=
  match tr with
  | [] => true
  | e :: tr' =>
      if is_close e then forallb (fun e' => negb (is_send e')) tr'
      else no_send_after_close tr'
  end.

(** The ten messages and their lines, in the order they are sent. *)
Definition expected_messages : list Message :=
  message <$> [1; 2; 3; 4; 5; 6; 7; 8; 9; 10].

Definition expected_lines : list string :=
  received_line <$> expected_messages.

(** Invariant: how many messages the producer has sent. *)
Definition sent_count (p : option producer_pc) : nat :=
  match p with
  | None => 0
  | Some (PSend i) => Z.to_nat (i - 1)
  | Some (PSleep i) => Z.to_nat i
  | Some PClose | Some PReturned => 10
  end.

(** The message the consumer has received and not yet printed. *)
Definition in_hand (c : option consumer_pc) : list Message :=
  match c with
  | Some (CPrint msg) => [msg]
  | _ => []
  end.

Definition producer_left (p : option producer_pc) : nat :=
  match p with
  | None => 22
  | Some (PSend i) => 2 * Z.to_nat (11 - i) + 2
  | Some (PSleep i) => 2 * Z.to_nat (10 - i) + 3
  | Some PClose => 1
  | Some PReturned => 0
  end.

Definition main_left (pc : main_pc) : nat :=
  match pc with
  | MGoConsumer => 2
  | MGoProducer => 1
  | MSelect => 0
  end.

Definition consumer_return_left (c : option consumer_pc) : nat :=
  match c with
  | Some CReturned => 0
  | _ => 1
  end.

(** A bound on the steps the program has left. *)
Definition steps_left (st : state) : nat :=
  main_left (main_at st) + producer_left (producer st)
  + 2 * (10 - sent_count (producer st))
  + 2 * length (buf (messages st))
  + length (in_hand (consumer st))
  + consumer_return_left (consumer st).

Definition started (st : state) : Prop :=
  match main_at st with
  | MGoConsumer => producer st = None /\ consumer st = None
  | MGoProducer => producer st = None /\ consumer st <> None
  | MSelect => producer st <> None /\ consumer st <> None
  end.

(** Where the program comes to rest: both goroutines returned and [main]
    at [select {}]. *)
Definition at_rest (st : state) : Prop :=
  main_at st = MSelect /\ producer st = Some PReturned /\
  consumer st = Some CReturned.

(** The invariant of every execution, [past] being the trace so far. *)
Record Inv (st : state) (past : list event) : Prop := mkInv {
  inv_not_panicked : panicked st = false;
  inv_no_panic_event : existsb is_panic past = false;
  inv_capacity : capacity (messages st) = 100%nat;
  inv_started : started st;
  inv_range : match producer st with
              | Some (PSend i) => 1 <= i <= 11
              | Some (PSleep i) => 1 <= i <= 10
              | _ => True
              end;
  inv_closed : closed (messages st)
               = match producer st with
                 | Some PReturned => true
                 | _ => false
                 end;
  inv_close_event : existsb is_close past
                    = match producer st with
                      | Some PReturned => true
                      | _ => false
                      end;
  inv_order : no_send_after_close past = true;
  inv_fifo : printed past ++ (received_line <$> in_hand (consumer st))
             ++ (received_line <$> buf (messages st))
             = take (sent_count (producer st)) expected_lines;
  inv_returned : consumer st = Some CReturned ->
                 buf (messages st) = [] /\ producer st = Some PReturned;
  inv_steps : (length past + steps_left st <= 45)%nat
}.

End Chat.

(** ** The wait-group snippet ([go/concurrency.md], "WaitGroup") *)

Module WaitGroup.
Local Open Scope Z_scope.

(** [wg.Add(delta)] on the counter of a [sync.WaitGroup]; a negative
    counter is a panic. *)
Definition Add (counter delta : Z) : option Z :=
  if counter + delta <? 0 then None else Some (counter + delta).

Inductive event : Type :=
| EvAdd (delta : Z)
| EvGo (task : Z)
| EvTask (task : Z)
| EvDone (task : Z)
| EvWaitReturns
| EvPanic (msg : string).

(** The main goroutine: at [wg.Add(2)], at the first [go], at the second
    [go], at [wg.Wait()], or past it. *)
Inductive main_pc : Type :=
| MAdd
| MGo1
| MGo2
| MWait
| MPast.

(** One of the two goroutines: at its task, at the deferred [wg.Done()],
    or returned. *)
Inductive task_pc : Type :=
| TTask
| TDone
| TReturned.

Inductive goroutine : Type :=
| GMain
| GTask (task : Z).

Record state : Type := mkState {
  counter : Z;
  main_at : main_pc;
  task1 : option task_pc;
  task2 : option task_pc;
  panicked : bool
}.

(** [var wg sync.WaitGroup] *)
Definition init : state :=
  {| counter := 0; main_at := MAdd; task1 := None; task2 := None;
     panicked := false |}.

Definition step_main (st : state) : option (event * state) :=
  match main_at st with
  | MAdd =>
      match Add (counter st) 2 with
      | Some c =>
          Some (EvAdd 2,
                {| counter := c; main_at := MGo1; task1 := task1 st;
                   task2 := task2 st; panicked := panicked st |})
      | None =>
          Some (EvPanic "sync: negative WaitGroup counter",
                {| counter := counter st; main_at := main_at st;
                   task1 := task1 st; task2 := task2 st; panicked := true |})
      end
  | MGo1 =>
      Some (EvGo 1,
            {| counter := counter st; main_at := MGo2; task1 := Some TTask;
               task2 := task2 st; panicked := panicked st |})
  | MGo2 =>
      Some (EvGo 2,
            {| counter := counter st; main_at := MWait; task1 := task1 st;
               task2 := Some TTask; panicked := panicked st |})
  | MWait =>
      if counter st =? 0 then
        Some (EvWaitReturns,
              {| counter := counter st; main_at := MPast; task1 := task1 st;
                 task2 := task2 st; panicked := panicked st |})
      else None
  | MPast => None
  end.

Definition task_of (k : Z) (st : state) : option task_pc :=
  if k =? 1 then task1 st else if k =? 2 then task2 st else None.

Definition set_task (k : Z) (st : state) (c : Z) (pc : task_pc) : state :=
  {| counter := c; main_at := main_at st;
     task1 := if k =? 1 then Some pc else task1 st;
     task2 := if k =? 2 then Some pc else task2 st;
     panicked := panicked st |}.

Definition step_task (k : Z) (st : state) : option (event * state) :=
  match task_of k st with
  | Some TTask => Some (EvTask k, set_task k st (counter st) TDone)
  | Some TDone =>
      match Add (counter st) (-1) with
      | Some c => Some (EvDone k, set_task k st c TReturned)
      | None =>
          Some (EvPanic "sync: negative WaitGroup counter",
                {| counter := counter st; main_at := main_at st;
                   task1 := task1 st; task2 := task2 st; panicked := true |})
      end
  | Some TReturned => None
  | None => None
  end.

Definition step (g : goroutine) (st : state) : option (event * state) :=
  if panicked st then None
  else match g with
       | GMain => step_main st
       | GTask k => step_task k st
       end.

Fixpoint run_from (st : state) (sched : list goroutine)
  : list event * state :=
  match sched with
  | [] => ([], st)
  | g :: sched' =>
      match step g st with
      | Some (e, st') =>
          let '(tr, fin) := run_from st' sched' in (e :: tr, fin)
      | None => run_from st sched'
      end
  end.

Definition run (sched : list goroutine) : list event * state :=
  run_from init sched.

(** Reading a trace from its start: which tasks have been carried out, and
    whether every return of [wg.Wait()] so far came after both. *)
Record verdict : Type := mkVerdict {
  seen1 : bool;
  seen2 : bool;
  in_order : bool
}.

Definition scan (v : verdict) (e : event) : verdict :=
  match e with
  | EvTask k =>
      {| seen1 := seen1 v || (k =? 1); seen2 := seen2 v || (k =? 2);
         in_order := in_order v |}
  | EvWaitReturns =>
      {| seen1 := seen1 v; seen2 := seen2 v;
         in_order := in_order v && seen1 v && seen2 v |}
  | _ => v
  end.

Definition read (tr : list event) : verdict :=
  fold_left scan tr {| seen1 := false; seen2 := false; in_order := true |}.

Definition is_panic (e : event) : bool :=
  match e with EvPanic _ => true | _ => false end.

(** Whether a task has been carried out, and what it still owes the
    counter. *)
Definition carried_out (t : option task_pc) : bool :=
  match t with
  | Some TDone | Some TReturned => true
  | _ => false
  end.

Definition owes (t : option task_pc) : Z :=
  match t with
  | Some TReturned => 0
  | _ => 1
  end.

Definition task_left (t : option task_pc) : nat :=
  match t with
  | None | Some TTask => 2
  | Some TDone => 1
  | Some TReturned => 0
  end.

Definition main_left (pc : main_pc) : nat :=
  match pc with
  | MAdd => 4
  | MGo1 => 3
  | MGo2 => 2
  | MWait => 1
  | MPast => 0
  end.

Definition steps_left (st : state) : nat :=
  main_left (main_at st) + task_left (task1 st) + task_left (task2 st).

(** The invariant of every execution, [past] being the trace so far. *)
Record Inv (st : state) (past : list event) : Prop := mkInv {
  inv_not_panicked : panicked st = false;
  inv_no_panic_event : existsb is_panic past = false;
  inv_counter : counter st
                = match main_at st with
                  | MAdd => 0
                  | _ => owes (task1 st) + owes (task2 st)
                  end;
  inv_started : match main_at st with
                | MAdd | MGo1 => task1 st = None /\ task2 st = None
                | MGo2 => task1 st <> None /\ task2 st = None
                | MWait => task1 st <> None /\ task2 st <> None
                | MPast => task1 st = Some TReturned /\
                           task2 st = Some TReturned
                end;
  inv_read : read past
             = {| seen1 := carried_out (task1 st);
                  seen2 := carried_out (task2 st); in_order := true |};
  inv_steps : (length past + steps_left st <= 8)%nat
}.

End WaitGroup.

(** ** The request pool ([go/concurrency.md], "Worker Pools: Handling HTTP
       Requests Concurrently") *)

Module Pool.
Import GoInt.
Local Open Scope Z_scope.

(** [type Request struct { ID int; URL string }] *)
Record Request : Type := mkRequest {
  ID : Z;
  URL : string
}.

(** A buffered channel of [A]. *)
Record chan (A : Type) : Type := mkChan {
  buf : list A;
  capacity : nat;
  closed : bool
}.
Arguments mkChan {A}.
Arguments buf {A}.
Arguments capacity {A}.
Arguments closed {A}.

Definition make {A} (n : nat) : chan A :=
  {| buf := []; capacity := n; closed := false |}.

Inductive send_result (A : Type) : Type :=
| Sent (c : chan A)
| SendBlocks
| SendPanics.
Arguments Sent {A}.
Arguments SendBlocks {A}.
Arguments SendPanics {A}.

Definition send {A} (c : chan A) (v : A) : send_result A :=
  if closed c then SendPanics
  else if (length (buf c) <? capacity c)%nat then
    Sent {| buf := buf c ++ [v]; capacity := capacity c; closed := closed c |}
  else SendBlocks.

Inductive recv_result (A : Type) : Type :=
| Received (v : option A) (c : chan A)
| RecvBlocks.
Arguments Received {A}.
Arguments RecvBlocks {A}.

(** [v, ok := <-c]; [None] stands for the zero value with [ok = false]. *)
Definition recv {A} (c : chan A) : recv_result A :=
  match buf c with
  | v :: rest =>
      Received (Some v)
        {| buf := rest; capacity := capacity c; closed := closed c |}
  | [] => if closed c then Received None c else RecvBlocks
  end.

Inductive close_result (A : Type) : Type :=
| Closed (c : chan A)
| ClosePanics.
Arguments Closed {A}.
Arguments ClosePanics {A}.

Definition close {A} (c : chan A) : close_result A :=
  if closed c then ClosePanics
  else Closed {| buf := buf c; capacity := capacity c; closed := true |}.

(** [url := fmt.Sprintf("http://example.com/%d", i)],
    [Request{ID: i, URL: url}]. *)
Definition request (i : Z) : Request :=
  {| ID := i; URL := ("http://example.com/" ++ itoa i)%string |}.

(** [fmt.Sprintf("Worker %d processed request %d to URL: %s",
                 id, req.ID, req.URL)] *)
Definition response (id : Z) (req : Request) : string :=
  ("Worker " ++ itoa id ++ " processed request " ++ itoa (ID req)
   ++ " to URL: " ++ URL req)%string.

Inductive event : Type :=
| EvGo (id : Z)
| EvGoProducer
| EvGoCollector
| EvRequest (req : Request)
| EvTake (id : Z) (req : option Request)
| EvRespond (id : Z) (req : Request)
| EvCollect (text : option string)
| EvPrint (line : string)
| EvClose
| EvSleep
| EvLoopExit
| EvPanic (msg : string).

(** [main] after the two [make]s: at the head of its loop with [i], at the
    [go] of the sender, at the [go] of the collector, or at [select {}]. *)
Inductive main_pc : Type :=
| MGo (i : Z)
| MGoProducer
| MGoCollector
| MSelect.

(** A worker: at [for req := range requests], at [results <- response]
    with the request it took, or returned. *)
Inductive worker_pc : Type :=
| WRange
| WSend (req : Request)
| WReturned.

(** The sender of requests. *)
Inductive producer_pc : Type :=
| PSend (i : Z)
| PSleep (i : Z)
| PClose
| PReturned.

(** The collector: at [for response := range results], at [fmt.Println]
    with the response it received, or returned. *)
Inductive collector_pc : Type :=
| KRange
| KPrint (text : string)
| KReturned.

Inductive goroutine : Type :=
| GMain
| GWorker (id : Z)
| GProducer
| GCollector.

Record state : Type := mkState {
  requests : chan Request;
  results : chan string;
  main_at : main_pc;
  workers : gmap Z worker_pc;
  producer : option producer_pc;
  collector : option collector_pc;
  panicked : bool
}.

Definition numWorkers : Z := 3.

Definition init : state :=
  {| requests := make 10; results := make 10; main_at := MGo 1;
     workers := ∅; producer := None; collector := None;
     panicked := false |}.

Definition set_panicked (st : state) : state :=
  {| requests := requests st; results := results st; main_at := main_at st;
     workers := workers st; producer := producer st;
     collector := collector st; panicked := true |}.

Definition step_main (st : state) : option (event * state) :=
  match main_at st with
  | MGo i =>
      if i <=? numWorkers then
        Some (EvGo i,
              {| requests := requests st; results := results st;
                 main_at := MGo (add i 1);
                 workers := <[i := WRange]> (workers st);
                 producer := producer st; collector := collector st;
                 panicked := panicked st |})
      else
        Some (EvLoopExit,
              {| requests := requests st; results := results st;
                 main_at := MGoProducer; workers := workers st;
                 producer := producer st; collector := collector st;
                 panicked := panicked st |})
  | MGoProducer =>
      Some (EvGoProducer,
            {| requests := requests st; results := results st;
               main_at := MGoCollector; workers := workers st;
               producer := Some (PSend 1); collector := collector st;
               panicked := panicked st |})
  | MGoCollector =>
      Some (EvGoCollector,
            {| requests := requests st; results := results st;
               main_at := MSelect; workers := workers st;
               producer := producer st; collector := Some KRange;
               panicked := panicked st |})
  | MSelect => None
  end.

Definition set_worker (st : state) (rq : chan Request) (rs : chan string)
    (id : Z) (pc : worker_pc) : state :=
  {| requests := rq; results := rs; main_at := main_at st;
     workers := <[id := pc]> (workers st); producer := producer st;
     collector := collector st; panicked := panicked st |}.

Definition step_worker (id : Z) (st : state) : option (event * state) :=
  match workers st !! id with
  | Some WRange =>
      match recv (requests st) with
      | Received (Some req) c =>
          Some (EvTake id (Some req), set_worker st c (results st) id (WSend req))
      | Received None c =>
          Some (EvTake id None, set_worker st c (results st) id WReturned)
      | RecvBlocks => None
      end
  | Some (WSend req) =>
      match send (results st) (response id req) with
      | Sent c => Some (EvRespond id req, set_worker st (requests st) c id WRange)
      | SendBlocks => None
      | SendPanics =>
          Some (EvPanic "send on closed channel", set_panicked st)
      end
  | Some WReturned => None
  | None => None
  end.

Definition set_producer (st : state) (rq : chan Request) (pc : producer_pc)
  : state :=
  {| requests := rq; results := results st; main_at := main_at st;
     workers := workers st; producer := Some pc;
     collector := collector st; panicked := panicked st |}.

Definition step_producer (st : state) : option (event * state) :=
  match producer st with
  | Some (PSend i) =>
      if i <=? 10 then
        match send (requests st) (request i) with
        | Sent c => Some (EvRequest (request i), set_producer st c (PSleep i))
        | SendBlocks => None
        | SendPanics =>
            Some (EvPanic "send on closed channel", set_panicked st)
        end
      else Some (EvLoopExit, set_producer st (requests st) PClose)
  | Some (PSleep i) =>
      Some (EvSleep, set_producer st (requests st) (PSend (add i 1)))
  | Some PClose =>
      match close (requests st) with
      | Closed c => Some (EvClose, set_producer st c PReturned)
      | ClosePanics =>
          Some (EvPanic "close of closed channel", set_panicked st)
      end
  | Some PReturned => None
  | None => None
  end.

Definition set_collector (st : state) (rs : chan string) (pc : collector_pc)
  : state :=
  {| requests := requests st; results := rs; main_at := main_at st;
     workers := workers st; producer := producer st;
     collector := Some pc; panicked := panicked st |}.

(** [fmt.Println(response)] prints the response as one line. *)
Definition step_collector (st : state) : option (event * state) :=
  match collector st with
  | Some KRange =>
      match recv (results st) with
      | Received (Some text) c =>
          Some (EvCollect (Some text), set_collector st c (KPrint text))
      | Received None c => Some (EvCollect None, set_collector st c KReturned)
      | RecvBlocks => None
      end
  | Some (KPrint text) =>
      Some (EvPrint text, set_collector st (results st) KRange)
  | Some KReturned => None
  | None => None
  end.

(** [main] never returns; the program goes on until a goroutine panics. *)
Definition step (g : goroutine) (st : state) : option (event * state) :=
  if panicked st then None
  else match g with
       | GMain => step_main st
       | GWorker id => step_worker id st
       | GProducer => step_producer st
       | GCollector => step_collector st
       end.

Fixpoint run_from (st : state) (sched : list goroutine)
  : list event * state :=
  match sched with
  | [] => ([], st)
  | g :: sched' =>
      match step g st with
      | Some (e, st') =>
          let '(tr, fin) := run_from st' sched' in (e :: tr, fin)
      | None => run_from st sched'
      end
  end.

Definition run (sched : list goroutine) : list event * state :=
  run_from init sched.

(** The lines printed, in order. *)
Definition line_printed (e : event) : option string :=
  match e with
  | EvPrint line => Some line
  | _ => None
  end.

Definition printed (tr : list event) : list string := omap line_printed tr.

(** Who answered what, in the order of the answers. *)
Definition answer (e : event) : option (Z * Request) :=
  match e with
  | EvRespond id req => Some (id, req)
  | _ => None
  end.

Definition answers (tr : list event) : list (Z * Request) := omap answer tr.

Definition answer_text (a : Z * Request) : string := response (fst a) (snd a).

Definition is_request (e : event) : bool :=
  match e with EvRequest _ => true | _ => false end.

Definition is_close (e : event) : bool :=
  match e with EvClose => true | _ => false end.

Definition is_panic (e : event) : bool :=
  match e with EvPanic _ => true | _ => false end.

(** No request is sent after the first [close(requests)] of the trace. *)
Fixpoint no_send_after_close (tr : list event) : bool :=
  match tr with
  | [] => true
  | e :: tr' =>
      if is_close e then forallb (fun e' => negb (is_request e')) tr'
      else no_send_after_close tr'
  end.

(** The ten requests, in the order they are sent. *)
Definition expected_requests : list Request :=
  request <$> [1; 2; 3; 4; 5; 6; 7; 8; 9; 10].

(** The request a worker holds between its receive and its send. *)
Definition request_held (kv : Z * worker_pc) : option Request :=
  match snd kv with
  | WSend req => Some req
  | _ => None
  end.

Definition held (ws : gmap Z worker_pc) : list Request :=
  omap request_held (map_to_list ws).

(** The workers that have not returned. *)
Definition worker_live (kv : Z * worker_pc) : option Z :=
  match snd kv with
  | WReturned => None
  | _ => Some (fst kv)
  end.

Definition live (ws : gmap Z worker_pc) : list Z :=
  omap worker_live (map_to_list ws).

(** How many requests the sender has sent. *)
Definition sent_count (p : option producer_pc) : nat :=
  match p with
  | None => 0
  | Some (PSend i) => Z.to_nat (i - 1)
  | Some (PSleep i) => Z.to_nat i
  | Some PClose | Some PReturned => 10
  end.

(** The response the collector has received and not yet printed. *)
Definition in_hand (k : option collector_pc) : list string :=
  match k with
  | Some (KPrint text) => [text]
  | _ => []
  end.

Definition spawned_below (pc : main_pc) : Z :=
  match pc with
  | MGo i => i
  | _ => numWorkers + 1
  end.

Definition main_left (pc : main_pc) : nat :=
  match pc with
  | MGo i => Z.to_nat (5 - i) + 2
  | MGoProducer => 2
  | MGoCollector => 1
  | MSelect => 0
  end.

Definition producer_left (p : option producer_pc) : nat :=
  match p with
  | None => 22
  | Some (PSend i) => 2 * Z.to_nat (11 - i) + 2
  | Some (PSleep i) => 2 * Z.to_nat (10 - i) + 3
  | Some PClose => 1
  | Some PReturned => 0
  end.

(** A bound on the steps the program has left: those of [main] and of the
    sender, a receive and a send of a worker and a receive and a print of
    the collector for each request on its way, and the return of each
    worker. *)
Definition steps_left (st : state) : nat :=
  main_left (main_at st) + producer_left (producer st)
  + 4 * (10 - sent_count (producer st))
  + 4 * length (buf (requests st))
  + 3 * length (held (workers st))
  + 2 * length (buf (results st))
  + length (in_hand (collector st))
  + length (live (workers st))
  + Z.to_nat (numWorkers + 1 - spawned_below (main_at st)).

Definition started (st : state) : Prop :=
  match main_at st with
  | MGo _ | MGoProducer => producer st = None /\ collector st = None
  | MGoCollector => producer st <> None /\ collector st = None
  | MSelect => producer st <> None /\ collector st <> None
  end.

(** Where the program comes to rest: the sender and the workers returned,
    the channels empty, the collector waiting for a response that will not
    come, and [main] at [select {}]. *)
Definition at_rest (st : state) : Prop :=
  main_at st = MSelect /\ producer st = Some PReturned /\
  collector st = Some KRange /\
  buf (requests st) = [] /\ buf (results st) = [] /\
  held (workers st) = [] /\
  forall k, 1 <= k <= numWorkers -> workers st !! k = Some WReturned.

(** The invariant of every execution, [past] being the trace so far. *)
Record Inv (st : state) (past : list event) : Prop := mkInv {
  inv_not_panicked : panicked st = false;
  inv_no_panic_event : existsb is_panic past = false;
  inv_capacity : capacity (requests st) = 10%nat /\
                 capacity (results st) = 10%nat;
  inv_results_open : closed (results st) = false;
  inv_started : started st;
  inv_range : match producer st with
              | Some (PSend i) => 1 <= i <= 11
              | Some (PSleep i) => 1 <= i <= 10
              | _ => True
              end;
  inv_main_range : match main_at st with
                   | MGo i => 1 <= i <= 4
                   | _ => True
                   end;
  inv_closed : closed (requests st)
               = match producer st with
                 | Some PReturned => true
                 | _ => false
                 end;
  inv_close_event : existsb is_close past
                    = match producer st with
                      | Some PReturned => true
                      | _ => false
                      end;
  inv_order : no_send_after_close past = true;
  inv_spawned : forall k, is_Some (workers st !! k) <->
                          1 <= k < spawned_below (main_at st);
  inv_balance : buf (requests st) ++ held (workers st)
                ++ (snd <$> answers past)
                ≡ₚ take (sent_count (producer st)) expected_requests;
  inv_by_workers : Forall (fun a => 1 <= fst a <= numWorkers) (answers past);
  inv_fifo : answer_text <$> answers past
             = printed past ++ in_hand (collector st) ++ buf (results st);
  inv_returned : forall id, workers st !! id = Some WReturned ->
                   buf (requests st) = [] /\ producer st = Some PReturned;
  inv_collecting : collector st <> Some KReturned;
  inv_steps : (length past + steps_left st <= 71)%nat
}.

End Pool.

(** ** Sample values, for trying the properties out *)

Module Samples.
Import Slices SliceOps.
Local Open Scope Z_scope.

Definition letters : slice string := SliceProgram.s.
Definition three_zeros : slice Z := literal [0; 0; 0].
Definition one_two : slice Z := literal [1; 2].

(** A capacity policy: twice the old capacity, or what is needed. *)
Definition double_or_need (old need : Z) : Z := Z.max need (2 * old).

(** [map[int]string{1: "2", 2: "4", 4: "8"}] *)
Definition powers : gmap Z string :=
  <[1 := "2"%string]> (<[2 := "4"%string]> (<[4 := "8"%string]> ∅)).

(** A process with nothing written yet. *)
Definition quiet_process : Fmt.process :=
  {| Fmt.os_args := []; Fmt.os_environ := []; Fmt.stdin := "";
     Fmt.stdout := "" |}.

(** One [int] variable, at address 1, holding 5. *)
Definition one_variable : gmap Heap.loc Z := <[1%positive := 5]> ∅.

(** One [rect], at address 1. *)
Definition ten_by_five : Functions.rect :=
  {| Functions.width := 10; Functions.height := 5 |}.
Definition one_rect : gmap Heap.loc Functions.rect :=
  <[1%positive := ten_by_five]> ∅.

(** One [person], at address 1. *)
Definition one_person : gmap Heap.loc Functions.person :=
  <[1%positive := {| Functions.name := "Bob"; Functions.age := 20 |}]> ∅.


(** A schedule of the request pool up to the first send of a request. *)
Definition pool_schedule : list Pool.goroutine :=
  [Pool.GMain; Pool.GMain; Pool.GMain; Pool.GMain; Pool.GMain].

End Samples.

(** * Properties *)

(** ** Go's [int] *)

Module GoIntFacts.
Import GoInt.
Local Open Scope Z_scope.

Lemma wrap_in_range (x : Z) : in_range x -> wrap x = x.
Proof.
  unfold in_range, wrap, MinInt, MaxInt, intSize. intros H.
  rewrite Z.mod_small; lia.
Qed.

Lemma wrap_range (x : Z) : in_range (wrap x).
Proof.
  unfold in_range, wrap, MinInt, MaxInt, intSize.
  pose proof (Z.mod_pos_bound (x - - 2 ^ (64 - 1)) (2 ^ 64) ltac:(lia)).
  lia.
Qed.

Lemma wrap_add_l (x y : Z) : wrap (wrap x + y) = wrap (x + y).
Proof.
  unfold wrap. f_equal.
  replace ((x - MinInt) mod 2 ^ intSize + MinInt + y - MinInt)
    with ((x - MinInt) mod 2 ^ intSize + y) by lia.
  rewrite Zplus_mod_idemp_l. f_equal. lia.
Qed.

Lemma in_range_0 : in_range 0.
Proof. unfold in_range, MinInt, MaxInt, intSize. lia. Qed.

End GoIntFacts.

(** ** [go/main.go] *)

Module SliceProgramSpec.
Import Exec Slices Fmt SliceProgram.

Lemma append_assoc (a b c : string) :
  ((a ++ b) ++ c)%string = (a ++ (b ++ c))%string.
Proof.
  induction a as [|ch a' IH]; [reflexivity|].
  change (String ch ((a' ++ b) ++ c) = String ch (a' ++ (b ++ c)))%string.
  by rewrite IH.
Qed.

(** [main] only appends to the standard output, and what it appends does
    not depend on the process it runs in. *)
Lemma main_appends (p : process) :
  main p = Ok (tt, {| os_args := os_args p; os_environ := os_environ p;
                      stdin := stdin p;
                      stdout := (stdout p ++ expected_output)%string |}).
Proof.
  destruct p as [a e i o]. unfold main, bind, lift, Println, write_stdout.
  simpl. rewrite !append_assoc. reflexivity.
Qed.

(** C1: whatever the arguments, the environment and the standard input,
    the program runs to the end and its output is the same fixed text of
    exactly three lines, so any two runs print the same; [main] leaves
    what it could have read untouched. *)
Theorem main_output_is_constant :
  (forall args environ input args' environ' input',
      run args environ input = run args' environ' input') /\
  (forall args environ input, run args environ input = Ok expected_output) /\
  lines expected_output = ["[c d e]"; "[a b c d e]"; "[c d e f]"]%string /\
  length (lines expected_output) = 3%nat /\
  (forall p, exists out,
      main p = Ok (tt, {| os_args := os_args p; os_environ := os_environ p;
                          stdin := stdin p; stdout := out |})).
Proof.
  split; [reflexivity|]. split; [reflexivity|].
  split; [reflexivity|]. split; [reflexivity|].
  intros p. eexists. apply main_appends.
Qed.

(** C2: [s[2:5]] is [["c","d","e"]], and the first line of the output of
    any run is [[c d e]]. *)
Theorem slice_2_5 :
  omap elems (slice_expr s (Some 2%Z) (Some 5%Z))
    = Ok ["c"; "d"; "e"]%string /\
  forall args environ input,
    omap (fun out => lines out !! 0%nat) (run args environ input)
      = Ok (Some "[c d e]"%string).
Proof. split; [reflexivity | intros; reflexivity]. Qed.

(** C3: [s[:5]] is [["a","b","c","d","e"]], and the second line of the
    output of any run is [[a b c d e]]. *)
Theorem slice_to_5 :
  omap elems (slice_expr s None (Some 5%Z))
    = Ok ["a"; "b"; "c"; "d"; "e"]%string /\
  forall args environ input,
    omap (fun out => lines out !! 1%nat) (run args environ input)
      = Ok (Some "[a b c d e]"%string).
Proof. split; [reflexivity | intros; reflexivity]. Qed.

(** C4: [s[2:]] is [["c","d","e","f"]], and the third line of the output
    of any run is [[c d e f]]. *)
Theorem slice_from_2 :
  omap elems (slice_expr s (Some 2%Z) None)
    = Ok ["c"; "d"; "e"; "f"]%string /\
  forall args environ input,
    omap (fun out => lines out !! 2%nat) (run args environ input)
      = Ok (Some "[c d e f]"%string).
Proof. split; [reflexivity | intros; reflexivity]. Qed.

(** The run-time check of a slice expression is what decides between a
    result and a panic. *)
Lemma slice_expr_ok_iff {T} (sl : slice T) (low high : option Z) :
  is_ok (slice_expr sl low high) = true <->
  (0 <= fst (bounds sl low high) <= snd (bounds sl low high) /\
   snd (bounds sl low high) <= cap sl)%Z.
Proof.
  unfold slice_expr, in_bounds.
  generalize (bounds sl low high); intros b.
  destruct (Z.leb_spec 0 (fst b)), (Z.leb_spec (fst b) (snd b)),
    (Z.leb_spec (snd b) (cap sl)); simpl;
    split; intros Hok; try discriminate; try reflexivity; lia.
Qed.

(** C8: [s] has length (and capacity) 6; the bounds of the three slice
    expressions of [main] are (2,5), (0,5) and (2,6), each with
    [0 <= low <= high <= len(s)]; none of the three panics, and neither
    does [main], in any process. *)
Theorem main_slices_in_bounds :
  len s = 6%Z /\ cap s = 6%Z /\
  [bounds s (Some 2%Z) (Some 5%Z); bounds s None (Some 5%Z);
   bounds s (Some 2%Z) None] = [(2, 5); (0, 5); (2, 6)]%Z /\
  Forall (fun b => (0 <= fst b <= snd b /\ snd b <= len s)%Z)
    [bounds s (Some 2%Z) (Some 5%Z); bounds s None (Some 5%Z);
     bounds s (Some 2%Z) None] /\
  Forall (fun e => is_ok e = true) [expr1; expr2; expr3] /\
  forall p, is_ok (main p) = true.
Proof.
  split; [reflexivity|]. split; [reflexivity|]. split; [reflexivity|].
  split.
  - repeat constructor; vm_compute; discriminate.
  - split; [repeat constructor|].
    intros p. by rewrite main_appends.
Qed.

End SliceProgramSpec.

(** ** Errors *)

Module ErrorsSpec.
Import GoInt GoIntFacts Errors.
Local Open Scope Z_scope.

(** C5: [f1] returns a non-nil error exactly when [arg == 42]; then the
    result is -1 and the error's message is "can't work with 42";
    otherwise it returns [arg + 3] (Go's addition on [int], which is the
    sum itself when that fits) and [nil]. *)
Theorem f1_spec (arg : Z) :
  (snd (f1 arg) <> nil <-> arg = 42) /\
  (arg = 42 ->
     fst (f1 arg) = -1 /\ Error (snd (f1 arg)) = Some "can't work with 42"%string) /\
  (arg <> 42 -> f1 arg = (add arg 3, nil)) /\
  (arg <> 42 -> in_range arg -> arg + 3 <= MaxInt -> f1 arg = (arg + 3, nil)).
Proof.
  unfold f1. destruct (Z.eqb_spec arg 42) as [->|Hne]; simpl.
  - repeat split; try discriminate; try reflexivity; intros; congruence.
  - repeat split; try congruence; try (intros; reflexivity).
    intros _ Hr Hmax. unfold add. rewrite wrap_in_range; [reflexivity|].
    unfold in_range in *. unfold MinInt, MaxInt, intSize in *. lia.
Qed.

Lemma f1_spec_witness :
  f1 7 = (10, nil) /\
  (fst (f1 42) = -1 /\ Error (snd (f1 42)) = Some "can't work with 42"%string).
Proof.
  split.
  - apply (f1_spec 7); [lia | vm_compute; split; discriminate | vm_compute; discriminate].
  - apply (f1_spec 42). reflexivity.
Defined.

(** C6: [f2] returns a non-nil error exactly when [arg == 42]; that error
    is a [*argError] with [arg] 42 and [prob] "can't work with it", and
    its [Error()] is "42 - can't work with it"; otherwise [f2] returns
    [arg + 3] and [nil]. *)
Theorem f2_spec (arg : Z) :
  (snd (f2 arg) <> nil <-> arg = 42) /\
  (arg = 42 ->
     fst (f2 arg) = -1 /\
     as_argError (snd (f2 arg))
       = Some {| Errors.arg := 42; prob := "can't work with it" |} /\
     Error (snd (f2 arg)) = Some "42 - can't work with it"%string) /\
  (arg <> 42 -> f2 arg = (add arg 3, nil)) /\
  (arg <> 42 -> in_range arg -> arg + 3 <= MaxInt -> f2 arg = (arg + 3, nil)).
Proof.
  unfold f2. destruct (Z.eqb_spec arg 42) as [->|Hne]; simpl.
  - repeat split; try discriminate; try reflexivity; intros; congruence.
  - repeat split; try congruence; try (intros; reflexivity).
    intros _ Hr Hmax. unfold add. rewrite wrap_in_range; [reflexivity|].
    unfold in_range in *. unfold MinInt, MaxInt, intSize in *. lia.
Qed.

Lemma f2_spec_witness :
  f2 7 = (10, nil) /\
  (fst (f2 42) = -1 /\
   as_argError (snd (f2 42))
     = Some {| Errors.arg := 42; prob := "can't work with it" |} /\
   Error (snd (f2 42)) = Some "42 - can't work with it"%string).
Proof.
  split.
  - apply (f2_spec 7); [lia | vm_compute; split; discriminate | vm_compute; discriminate].
  - apply (f2_spec 42). reflexivity.
Defined.

End ErrorsSpec.

(** ** Generics: [List[T]] *)

Module GenericsSpec.
Import Exec Heap Generics GenericsInv.

Section ListT.
Context {T : Type}.
Implicit Types (h : gmap loc (element T)) (lst : List T) (vs : list T).
Implicit Types (cells : list (loc * T)).

Lemma chain_app h a xs ys c :
  chain h a (xs ++ ys) c <-> exists b, chain h a xs b /\ chain h b ys c.
Proof.
  revert a. induction xs as [|[p v] xs IH]; intros a; simpl.
  - split; [intros H; by exists a | intros (b & -> & H); exact H].
  - split.
    + intros (-> & nxt & Hp & Hc). apply IH in Hc as (b & H1 & H2).
      exists b. split; [|exact H2]. split; [reflexivity|]. by exists nxt.
    + intros (b & (-> & nxt & Hp & H1) & H2). split; [reflexivity|].
      exists nxt. split; [exact Hp|]. apply IH. by exists b.
Qed.

Lemma chain_allocated h a cells c p :
  chain h a cells c -> p ∈ cells.*1 -> is_Some (h !! p).
Proof.
  revert a. induction cells as [|[q v] cells IH]; intros a; simpl.
  - intros _ Hin. by apply elem_of_nil in Hin.
  - intros (-> & nxt & Hq & Hc) Hin. apply elem_of_cons in Hin as [->|Hin].
    + by eexists.
    + by eapply IH.
Qed.

Lemma chain_frame h h' a cells c :
  chain h a cells c ->
  (forall p, p ∈ cells.*1 -> h' !! p = h !! p) ->
  chain h' a cells c.
Proof.
  revert a. induction cells as [|[q v] cells IH]; intros a; simpl.
  - by intros.
  - intros (-> & nxt & Hq & Hc) Hsame. split; [reflexivity|].
    exists nxt. split.
    + rewrite Hsame; [exact Hq | apply elem_of_cons; by left].
    + apply (IH _ Hc). intros p Hp. apply Hsame, elem_of_cons. by right.
Qed.

(** The loop of [GetAll] appends the values of a nil-ended chain, given as
    many iterations as the chain has cells. *)
Lemma GetAll_loop_chain h cells : forall fuel a acc,
  chain h a cells None -> (length cells <= fuel)%nat ->
  GetAll_loop fuel h a acc = Some (Ok (acc ++ cells.*2)).
Proof.
  induction cells as [|[q v] cells IH]; intros fuel a acc; simpl.
  - intros -> _. rewrite app_nil_r. by destruct fuel.
  - intros (-> & nxt & Hq & Hc) Hfuel.
    destruct fuel as [|fuel]; [lia|]. simpl. rewrite Hq. simpl.
    rewrite (IH fuel nxt (acc ++ [v]) Hc); [|lia].
    by rewrite <- app_assoc.
Qed.

Lemma is_list_empty h : is_list h empty [].
Proof. exists []. repeat split; constructor. Qed.

Lemma is_list_length h lst vs :
  is_list h lst vs -> (length vs <= size h)%nat.
Proof.
  intros (cells & <- & Hnd & Hc & _).
  rewrite length_fmap, <- (length_fmap fst cells).
  rewrite <- (size_list_to_set (C := gset loc) _ Hnd), <- (size_dom (D := gset loc) h).
  apply subseteq_size. intros p Hp. apply elem_of_list_to_set in Hp.
  apply elem_of_dom. by eapply chain_allocated.
Qed.

Lemma GetAll_is_list h lst vs :
  is_list h lst vs -> GetAll lst h = Ok (vs, h).
Proof.
  intros Hl. pose proof (is_list_length _ _ _ Hl) as Hlen.
  destruct Hl as (cells & <- & Hnd & Hc & _).
  unfold GetAll. rewrite (GetAll_loop_chain h cells _ _ [] Hc); [done|].
  by rewrite length_fmap in Hlen.
Qed.

Lemma Push_is_list h lst vs v :
  is_list h lst vs ->
  exists lst' h', Push lst v h = Ok (lst', h') /\ is_list h' lst' (vs ++ [v]).
Proof.
  intros (cells & <- & Hnd & Hc & Htail).
  pose proof (is_fresh (dom h)) as Hfresh.
  set (p := fresh (dom h)) in *.
  assert (Hp : h !! p = None) by (by apply not_elem_of_dom).
  unfold Push. destruct cells as [|[t vt] cells0 _] using rev_ind.
  - simpl in *. rewrite Htail. unfold bind, alloc, ret. simpl. fold p.
    eexists _, _. split; [reflexivity|].
    exists [(p, v)]. simpl. repeat split.
    + apply NoDup_singleton.
    + exists None. split; [apply lookup_insert_eq | reflexivity].
  - rewrite fmap_app in Htail, Hnd. simpl in Htail, Hnd.
    rewrite last_snoc in Htail. rewrite Htail.
    apply chain_app in Hc as (b & Hc0 & (-> & nxt & Ht & ->)).
    apply NoDup_app in Hnd as (Hnd0 & Hnt & _).
    assert (Hpt : p <> t) by (intros ->; congruence).
    unfold bind, alloc, load, store, ret. simpl. fold p.
    rewrite lookup_insert_ne by done. rewrite Ht. simpl.
    rewrite lookup_insert_ne by done. rewrite Ht. simpl.
    rewrite lookup_insert_eq.
    eexists _, _. split; [reflexivity|].
    exists (cells0 ++ [(t, vt); (p, v)]). simpl.
    rewrite !fmap_app. simpl. split; [|split; [|split]].
    + by rewrite <- app_assoc.
    + apply NoDup_app. split; [exact Hnd0|]. split.
      * intros q Hq Hq'. apply elem_of_cons in Hq' as [->|Hq'].
        { eapply Hnt; [exact Hq | apply list_elem_of_singleton; reflexivity]. }
        apply list_elem_of_singleton in Hq' as ->.
        destruct (chain_allocated _ _ _ _ _ Hc0 Hq) as [? ?]. congruence.
      * apply NoDup_cons. split; [|apply NoDup_singleton].
        intros Hin. by apply list_elem_of_singleton in Hin.
    + apply chain_app. exists (Some t). split.
      * apply (chain_frame h); [exact Hc0|]. intros q Hq.
        rewrite !lookup_insert_ne; [reflexivity| |].
        { intros ->. destruct (chain_allocated _ _ _ _ _ Hc0 Hq) as [? ?].
          congruence. }
        { intros ->. eapply Hnt; [exact Hq|].
          apply list_elem_of_singleton; reflexivity. }
      * simpl. split; [reflexivity|]. exists (Some p).
        split; [apply lookup_insert_eq|]. split; [reflexivity|].
        exists None. split; [|reflexivity].
        rewrite lookup_insert_ne by done. apply lookup_insert_eq.
    + by rewrite last_app_cons.
Qed.

Lemma PushAll_is_list ws : forall h lst vs,
  is_list h lst vs ->
  exists lst' h',
    PushAll lst ws h = Ok (lst', h') /\ is_list h' lst' (vs ++ ws).
Proof.
  induction ws as [|w ws IH]; intros h lst vs Hl; simpl.
  - exists lst, h. by rewrite app_nil_r.
  - destruct (Push_is_list h lst vs w Hl) as (lst1 & h1 & Hpush & Hl1).
    destruct (IH h1 lst1 (vs ++ [w]) Hl1) as (lst2 & h2 & Hall & Hl2).
    exists lst2, h2. unfold bind. rewrite Hpush.
    split; [exact Hall|]. by rewrite <- app_assoc in Hl2.
Qed.

(** C9: starting from the empty list, in any heap, [Push] of
    [v1, ..., vn] in that order followed by [GetAll] returns exactly
    [[v1, ..., vn]]; with nothing pushed it returns the empty slice and
    leaves the heap as it was. *)
Theorem GetAll_returns_pushed :
  (forall vs h, exists h', push_then_GetAll vs h = Ok (vs, h')) /\
  (forall h, push_then_GetAll (T := T) [] h = Ok ([], h)).
Proof.
  assert (Hall : forall vs h, exists h', push_then_GetAll vs h = Ok (vs, h')).
  { intros vs h.
    destruct (PushAll_is_list vs h empty [] (is_list_empty h))
      as (lst & h' & Hpush & Hl).
    exists h'. unfold push_then_GetAll, bind. rewrite Hpush.
    by apply GetAll_is_list. }
  split; [exact Hall|].
  intros h. unfold push_then_GetAll, bind. simpl.
  apply GetAll_is_list, is_list_empty.
Qed.

End ListT.

(** The tutorial's own use of the list. *)
Example main_prints_10_13 :
  omap fst (push_then_GetAll [10%Z; 13%Z] ∅) = Ok [10%Z; 13%Z].
Proof. vm_compute. reflexivity. Qed.

End GenericsSpec.

(** ** Closures: [intSeq] *)

Module ClosuresSpec.
Import Exec Heap GoInt GoIntFacts Closures.
Local Open Scope Z_scope.

Implicit Types (σ : gmap loc Z) (f g : closure).

(** [intSeq] captures a variable that no function value made before can
    have captured, and sets it to 0. *)
Lemma intSeq_fresh σ :
  exists f, intSeq σ = Ok (f, <[i f := 0]> σ) /\ σ !! i f = None.
Proof.
  exists {| i := fresh (dom σ) |}. split; [reflexivity|].
  apply not_elem_of_dom, is_fresh.
Qed.

(** A call adds one to the captured variable and returns the new value. *)
Lemma call_spec σ f v :
  σ !! i f = Some v ->
  call f σ = Ok (add v 1, <[i f := add v 1]> σ).
Proof.
  intros Hv. unfold call, bind, load, store.
  rewrite Hv. simpl. rewrite Hv. simpl. by rewrite lookup_insert_eq.
Qed.

(** It changes no other variable. *)
Lemma call_frame σ f r σ' (q : loc) :
  call f σ = Ok (r, σ') -> q <> i f -> σ' !! q = σ !! q.
Proof.
  intros Hcall Hq. destruct (σ !! i f) as [v|] eqn:Hv.
  - rewrite (call_spec _ _ _ Hv) in Hcall. injection Hcall as _ <-.
    by rewrite lookup_insert_ne.
  - unfold call, bind, load in Hcall. by rewrite Hv in Hcall.
Qed.

Lemma repeat_calls_succ f (k : N) :
  repeat_calls f (N.succ k) = bind (call f) (fun _ => repeat_calls f k).
Proof. unfold repeat_calls. by rewrite N.iter_succ. Qed.

(** After [k] calls the captured variable has been counted up [k] times,
    modulo the width of [int]. *)
Lemma repeat_calls_spec f (k : N) : forall σ v,
  σ !! i f = Some v -> in_range v ->
  exists σ', repeat_calls f k σ = Ok (tt, σ') /\
             σ' !! i f = Some (wrap (v + Z.of_N k)).
Proof.
  induction k as [|k IH] using N.peano_ind; intros σ v Hv Hr.
  - exists σ. split; [reflexivity|].
    by rewrite Z.add_0_r, wrap_in_range.
  - rewrite repeat_calls_succ. unfold bind. rewrite (call_spec _ _ _ Hv).
    destruct (IH (<[i f := add v 1]> σ) (add v 1)) as (σ' & Hrun & Hcell).
    { apply lookup_insert_eq. }
    { apply wrap_range. }
    exists σ'. split; [exact Hrun|]. rewrite Hcell. f_equal.
    unfold add. rewrite wrap_add_l. f_equal. lia.
Qed.

Lemma nth_call_spec f (n : N) σ :
  σ !! i f = Some 0 -> (1 <= n)%N ->
  exists σ', nth_call f n σ = Ok (wrap (Z.of_N n), σ').
Proof.
  intros Hv Hn.
  destruct (repeat_calls_spec f (N.pred n) σ 0 Hv in_range_0)
    as (σ1 & Hrun & Hcell).
  unfold nth_call, bind. rewrite Hrun, (call_spec _ _ _ Hcell).
  eexists. f_equal. f_equal. unfold add. rewrite wrap_add_l. f_equal. lia.
Qed.

(** The [n]-th call of a function value fresh from [intSeq] returns [n]
    modulo the width of [int]. *)
Lemma fresh_nth_call_wrap σ (n : N) :
  (1 <= n)%N ->
  exists σ', fresh_nth_call n σ = Ok (wrap (Z.of_N n), σ').
Proof.
  intros Hn. destruct (intSeq_fresh σ) as (f & Hf & _).
  unfold fresh_nth_call, bind. rewrite Hf.
  apply nth_call_spec; [apply lookup_insert_eq | exact Hn].
Qed.

(** Two function values with different captured variables, called in any
    order: each call returns one more than the last call of the same
    function value did. *)
Lemma calls_spec f g (sched : list bool) : forall σ a b,
  i f <> i g ->
  σ !! i f = Some a -> σ !! i g = Some b ->
  0 <= a -> 0 <= b ->
  a + Z.of_nat (length sched) <= MaxInt ->
  b + Z.of_nat (length sched) <= MaxInt ->
  exists σ', calls f g sched σ = Ok (tally a b sched, σ').
Proof.
  assert (Hsmall : forall x, 0 <= x -> x + 1 <= MaxInt -> add x 1 = x + 1).
  { intros x H0 H1. apply wrap_in_range.
    unfold in_range, MinInt, MaxInt, intSize in *. lia. }
  induction sched as [|c sched IH]; intros σ a b Hfg Ha Hb Ha0 Hb0 Hamax Hbmax.
  - by exists σ.
  - simpl length in *. simpl. unfold bind at 1. destruct c.
    + rewrite (call_spec _ _ _ Ha), Hsmall by lia.
      destruct (IH (<[i f := a + 1]> σ) (a + 1) b) as (σ' & Hrun); try lia.
      { apply lookup_insert_eq. }
      { by rewrite lookup_insert_ne. }
      exists σ'. unfold bind. by rewrite Hrun.
    + rewrite (call_spec _ _ _ Hb), Hsmall by lia.
      destruct (IH (<[i g := b + 1]> σ) a (b + 1)) as (σ' & Hrun); try lia.
      { by rewrite lookup_insert_ne. }
      { apply lookup_insert_eq. }
      exists σ'. unfold bind. by rewrite Hrun.
Qed.

(** C10, as the code has it: the [n]-th call of a function value returned
    by [intSeq] returns [n] for every [n] from 1 up to the largest [int];
    two function values from two calls of [intSeq], called in any order,
    each count their own calls; and a call of one function value changes
    neither the captured variable of a function value made by another call
    of [intSeq] nor what that one returns next. *)
Theorem intSeq_counts_independently :
  (forall σ (n : N), (1 <= n)%N -> Z.of_N n <= MaxInt ->
     exists σ', fresh_nth_call n σ = Ok (Z.of_N n, σ')) /\
  (forall σ (sched : list bool), Z.of_nat (length sched) <= MaxInt ->
     exists σ', two_counters sched σ = Ok (tally 0 0 sched, σ')) /\
  (forall σ f, is_Some (σ !! i f) ->
     exists g σ1, intSeq σ = Ok (g, σ1) /\ i g <> i f /\
       omap fst (bind (call g) (fun _ => call f) σ1) = omap fst (call f σ1) /\
       omap fst (bind (call f) (fun _ => call g) σ1) = omap fst (call g σ1)).
Proof.
  split; [|split].
  - intros σ n Hn Hmax. destruct (fresh_nth_call_wrap σ n Hn) as (σ' & Hrun).
    exists σ'. rewrite Hrun, wrap_in_range; [reflexivity|].
    unfold in_range, MinInt, MaxInt, intSize in *. lia.
  - intros σ sched Hlen.
    destruct (intSeq_fresh σ) as (f & Hf & Hfnew).
    destruct (intSeq_fresh (<[i f := 0]> σ)) as (g & Hg & Hgnew).
    assert (Hfg : i f <> i g).
    { intros Heq. rewrite <- Heq, lookup_insert_eq in Hgnew. discriminate. }
    unfold two_counters, bind. rewrite Hf, Hg.
    apply calls_spec; try lia; try exact Hfg.
    + rewrite lookup_insert_ne by done. apply lookup_insert_eq.
    + apply lookup_insert_eq.
  - intros σ f [v Hv]. destruct (intSeq_fresh σ) as (g & Hg & Hgnew).
    assert (Hgf : i g <> i f) by (intros Heq; congruence).
    exists g, (<[i g := 0]> σ). split; [exact Hg|]. split; [exact Hgf|].
    assert (Hf1 : <[i g := 0]> σ !! i f = Some v) by (by rewrite lookup_insert_ne).
    assert (Hg1 : <[i g := 0]> σ !! i g = Some 0) by apply lookup_insert_eq.
    unfold bind. rewrite (call_spec _ _ _ Hg1), (call_spec _ _ _ Hf1).
    split.
    + erewrite call_spec; [reflexivity|]. by rewrite lookup_insert_ne.
    + erewrite call_spec; [reflexivity|]. by rewrite lookup_insert_ne.
Qed.

Lemma intSeq_counts_independently_witness :
  (exists σ', fresh_nth_call 3 ∅ = Ok (3, σ')) /\
  (exists σ', two_counters [true; true; true; false] ∅ = Ok ([1; 2; 3; 1], σ')).
Proof.
  split.
  - apply (proj1 intSeq_counts_independently ∅ 3%N); [lia | vm_compute; discriminate].
  - apply (proj1 (proj2 intSeq_counts_independently) ∅ [true; true; true; false]).
    vm_compute; discriminate.
Defined.

(** C10, as the claim has it, fails where the counter overflows: with a
    64-bit [int] the call number 2^63 returns -2^63. *)
Lemma nth_call_overflows :
  omap fst (fresh_nth_call (2 ^ 63)%N ∅) = Ok (- 2 ^ 63) /\
  - 2 ^ 63 <> Z.of_N (2 ^ 63)%N.
Proof.
  split.
  - destruct (fresh_nth_call_wrap ∅ (2 ^ 63)%N) as (σ' & Hrun); [lia|].
    rewrite Hrun. unfold omap, fst. f_equal.
  - lia.
Qed.

(** The tutorial's [main]: three calls of [nextInt], then one of
    [newInts]. *)
Example main_prints_1_2_3_1 :
  omap fst ((nextInt <- intSeq ;;
             a <- call nextInt ;; b <- call nextInt ;; c <- call nextInt ;;
             newInts <- intSeq ;;
             d <- call newInts ;;
             ret [a; b; c; d])%go ∅)
  = Ok [1; 2; 3; 1].
Proof. vm_compute. reflexivity. Qed.

End ClosuresSpec.

(** ** Worker pools *)

Module WorkerPoolSpec.
Import GoInt GoIntFacts WorkerPool WorkerPoolInv.
Local Open Scope Z_scope.

Lemma Inv_init : Inv init [].
Proof. by constructor. Qed.

(** The three trace functions only look at what happens on the channel. *)
Lemma forallb_no_send_filter c tr :
  forallb (fun e => negb (is_send_on c e)) (List.filter (on_chan c) tr)
  = forallb (fun e => negb (is_send_on c e)) tr.
Proof.
  induction tr as [|e tr IH]; [reflexivity|]. simpl. unfold on_chan at 1.
  destruct (is_send_on c e) eqn:Es; simpl; [by rewrite Es|].
  destruct (is_close_of c e); simpl; [by rewrite Es|]; exact IH.
Qed.

Lemma no_send_after_close_filter c tr :
  no_send_after_close c (List.filter (on_chan c) tr) = no_send_after_close c tr.
Proof.
  induction tr as [|e tr IH]; [reflexivity|]. simpl. unfold on_chan at 1.
  destruct (is_close_of c e) eqn:Ec.
  - rewrite orb_true_r. simpl. rewrite Ec. apply forallb_no_send_filter.
  - rewrite orb_false_r. destruct (is_send_on c e); simpl; [by rewrite Ec|].
    exact IH.
Qed.

Lemma sent_before_close_filter c tr :
  sent_before_close c (List.filter (on_chan c) tr) = sent_before_close c tr.
Proof.
  induction tr as [|e tr IH]; [reflexivity|]. simpl. unfold on_chan at 1.
  destruct (is_close_of c e) eqn:Ec.
  - rewrite orb_true_r. simpl. by rewrite Ec.
  - rewrite orb_false_r. destruct (is_send_on c e) eqn:Es; simpl.
    + rewrite Ec. destruct e; try discriminate. by rewrite Es, IH.
    + destruct e; try exact IH; by rewrite Es.
Qed.

Lemma closes_filter c tr :
  closes c (List.filter (on_chan c) tr) = closes c tr.
Proof.
  unfold closes. induction tr as [|e tr IH]; [reflexivity|]. simpl.
  unfold on_chan at 1. destruct (is_close_of c e) eqn:Ec.
  - rewrite orb_true_r. simpl. by rewrite Ec.
  - rewrite orb_false_r. destruct (is_send_on c e); simpl; [by rewrite Ec|].
    exact IH.
Qed.

Lemma forallb_Forall {A} (f : A -> bool) (l : list A) :
  forallb f l = true <-> Forall (fun x => f x = true) l.
Proof.
  induction l as [|x l IH]; simpl.
  - split; [constructor | reflexivity].
  - rewrite andb_true_iff, IH. split.
    + intros [Hx Hl]. by constructor.
    + intros H. inversion H; subst. by split.
Qed.

(** What the check [no_send_after_close] says: after any [close(c)] in
    the trace there is no send on [c]. *)
Lemma no_send_after_close_spec c tr :
  no_send_after_close c tr = true <->
  forall t1 e t2, tr = t1 ++ e :: t2 -> is_close_of c e = true ->
    Forall (fun e' => is_send_on c e' = false) t2.
Proof.
  induction tr as [|e0 tr IH]; simpl.
  - split; [|done]. intros _ [|? ?] ? ? ?; discriminate.
  - destruct (is_close_of c e0) eqn:Ec.
    + rewrite forallb_Forall. split.
      * intros Hall t1 e t2 Heq Hclose.
        assert (Hsuffix : exists pre, tr = pre ++ t2).
        { destruct t1 as [|? t1]; simpl in Heq; injection Heq as -> ->.
          - by exists [].
          - exists (t1 ++ [e]). by rewrite <- app_assoc. }
        destruct Hsuffix as (pre & ->). apply Forall_app in Hall as [_ Hall].
        eapply Forall_impl; [exact Hall|]. simpl. intros x Hx.
        by destruct (is_send_on c x).
      * intros Hall. specialize (Hall [] e0 tr eq_refl Ec).
        eapply Forall_impl; [exact Hall|]. by intros x ->.
    + rewrite IH. split.
      * intros Hall t1 e t2 Heq Hclose.
        destruct t1 as [|? t1]; simpl in Heq; injection Heq as -> ->.
        { congruence. }
        by eapply Hall.
      * intros Hall t1 e t2 -> Hclose. by apply (Hall (e0 :: t1) e t2).
Qed.

Lemma add_1_small (x : Z) : 0 <= x <= 5 -> add x 1 = x + 1.
Proof.
  intros Hx. apply wrap_in_range. unfold in_range, MinInt, MaxInt, intSize. lia.
Qed.

Lemma filter_snoc_off (past : list event) (e : event) :
  on_chan jobs e = false ->
  List.filter (on_chan jobs) (past ++ [e]) = List.filter (on_chan jobs) past.
Proof. intros He. rewrite List.filter_app. simpl. by rewrite He, app_nil_r. Qed.

Lemma existsb_snoc_off (past : list event) (e : event) :
  is_panic e = false -> existsb is_panic past = false ->
  existsb is_panic (past ++ [e]) = false.
Proof. intros He Hp. rewrite existsb_app. simpl. by rewrite He, Hp. Qed.

(** A step of [main] keeps the invariant. *)
Lemma step_main_Inv st past e st' :
  Inv st past -> step_main st = Some (e, st') -> Inv st' (past ++ [e]).
Proof.
  intros [Hnp Hro Hne Hjc Hrange Hlog].
  destruct st as [jc rc pc ws pk]. simpl in *. unfold step_main. simpl.
  destruct pc as [i|i| |i|i r|]; simpl in *.
  - destruct (i <=? numWorkers); intros [= <- <-];
      constructor; simpl; try done;
      try (by apply existsb_snoc_off); by rewrite filter_snoc_off.
  - destruct (Z.leb_spec i 5) as [Hi|Hi].
    + unfold send. rewrite Hjc.
      destruct (length (buf jc) <? capacity jc)%nat; [|discriminate].
      intros [= <- <-]. rewrite add_1_small by lia.
      constructor; simpl; try done.
      * by apply existsb_snoc_off.
      * lia.
      * rewrite List.filter_app, Hlog.
        assert (Hcases : i = 1 \/ i = 2 \/ i = 3 \/ i = 4 \/ i = 5) by lia.
        by destruct Hcases as [->|[->|[->|[->| ->]]]].
    + intros [= <- <-]. assert (i = 6) as -> by lia.
      constructor; simpl; try done;
        try (by apply existsb_snoc_off); by rewrite filter_snoc_off.
  - unfold close. rewrite Hjc. simpl. intros [= <- <-].
    constructor; simpl; try done.
    + by apply existsb_snoc_off.
    + by rewrite List.filter_app, Hlog.
  - destruct (i <=? 5).
    + unfold recv. destruct (buf rc) as [|v rest].
      * rewrite Hro. discriminate.
      * intros [= <- <-]. constructor; simpl; try done;
          try (by apply existsb_snoc_off); by rewrite filter_snoc_off.
    + intros [= <- <-]. constructor; simpl; try done;
        try (by apply existsb_snoc_off); by rewrite filter_snoc_off.
  - intros [= <- <-]. constructor; simpl; try done;
      try (by apply existsb_snoc_off); by rewrite filter_snoc_off.
  - discriminate.
Qed.

(** A step of a worker keeps the invariant. *)
Lemma step_worker_Inv id st past e st' :
  Inv st past -> step_worker id st = Some (e, st') -> Inv st' (past ++ [e]).
Proof.
  intros [Hnp Hro Hne Hjc Hrange Hlog].
  destruct st as [jc rc pc ws pk]. simpl in *. unfold step_worker. simpl.
  destruct (ws !! id) as [[|job|]|]; try discriminate.
  - unfold recv. destruct (buf jc) as [|v rest].
    + destruct (closed jc) eqn:Hc; [|discriminate]. intros [= <- <-].
      constructor; simpl; try done;
        try (by apply existsb_snoc_off); try (by rewrite filter_snoc_off).
      by rewrite Hc.
    + intros [= <- <-].
      constructor; simpl; try done;
        try (by apply existsb_snoc_off); by rewrite filter_snoc_off.
  - unfold send. rewrite Hro.
    destruct (length (buf rc) <? capacity rc)%nat; [|discriminate].
    intros [= <- <-].
    constructor; simpl; try done;
      try (by apply existsb_snoc_off); by rewrite filter_snoc_off.
Qed.

Lemma step_Inv g st past e st' :
  Inv st past -> step g st = Some (e, st') -> Inv st' (past ++ [e]).
Proof.
  intros HI. unfold step. destruct (halted st); [discriminate|].
  destruct g; [by apply step_main_Inv | by apply step_worker_Inv].
Qed.

(** Every execution keeps the invariant. *)
Lemma run_from_Inv sched : forall st past,
  Inv st past ->
  Inv (snd (run_from st sched)) (past ++ fst (run_from st sched)).
Proof.
  induction sched as [|g sched IH]; intros st past HI; simpl.
  - by rewrite app_nil_r.
  - destruct (step g st) as [[e st']|] eqn:Hstep; [|by apply IH].
    specialize (IH st' (past ++ [e]) (step_Inv _ _ _ _ _ HI Hstep)).
    destruct (run_from st' sched) as [tr fin]. simpl in *.
    by rewrite <- app_assoc in IH.
Qed.

(** C7: under every schedule, no send on [jobs] follows [close(jobs)] in
    the trace; when [jobs] has been closed the sends before the close were
    those of 1, 2, 3, 4, 5 in this order; and nothing panics. *)
Theorem no_send_on_jobs_after_close (sched : list goroutine) :
  no_send_after_close jobs (fst (run sched)) = true /\
  (closes jobs (fst (run sched)) = true ->
     sent_before_close jobs (fst (run sched)) = [1; 2; 3; 4; 5]) /\
  existsb is_panic (fst (run sched)) = false /\
  panicked (snd (run sched)) = false.
Proof.
  pose proof (run_from_Inv sched init [] Inv_init) as HI. fold (run sched) in HI.
  simpl in HI. destruct HI as [Hnp _ Hne _ _ Hlog].
  rewrite <- no_send_after_close_filter, <- sent_before_close_filter,
    <- closes_filter, Hlog.
  split; [|split; [|by split]].
  - by destruct (progress (main_at (snd (run sched))))
      as [|[|[|[|[|[|[|k]]]]]]].
  - by destruct (progress (main_at (snd (run sched))))
      as [|[|[|[|[|[|[|k]]]]]]].
Qed.

Lemma no_send_on_jobs_after_close_witness :
  closes jobs (fst (run main_first)) = true /\
  sent_before_close jobs (fst (run main_first)) = [1; 2; 3; 4; 5].
Proof.
  split; [vm_compute; reflexivity|].
  apply (no_send_on_jobs_after_close main_first). vm_compute. reflexivity.
Defined.

(** The program can run to its end: under [main_first], [main] returns
    having printed the five results. *)
Example main_first_runs_to_the_end :
  main_at (snd (run main_first)) = MReturned /\
  List.filter (fun e => match e with EvPrint _ => true | _ => false end)
    (fst (run main_first))
  = [EvPrint "Result: 2"; EvPrint "Result: 4"; EvPrint "Result: 6";
     EvPrint "Result: 8"; EvPrint "Result: 10"].
Proof. vm_compute. split; reflexivity. Qed.

End WorkerPoolSpec.

(** ** Slices: slicing, [make], [copy], [append], [MapKeys] *)

Module SliceOpsSpec.
Import Exec GoInt GoIntFacts Slices SliceOps.
Local Open Scope Z_scope.

Section Facts.
Context {T : Type}.
Implicit Types (s : slice T) (xs : list T).

Lemma elems_length s :
  well_formed s -> Z.of_nat (length (elems s)) = len s.
Proof.
  intros (Ho & Hl & Hc). unfold elems.
  rewrite length_take, length_drop. lia.
Qed.

(** X1: in range, [s[lo:hi]] shows the elements of [s] from index [lo] up to,
    not including, index [hi], and is again a well-formed slice on the
    same backing array. *)
Theorem slice_expr_elems s (lo hi : Z) :
  well_formed s -> 0 <= lo <= hi -> hi <= len s ->
  exists s',
    slice_expr s (Some lo) (Some hi) = Ok s' /\
    elems s' = take (Z.to_nat (hi - lo)) (drop (Z.to_nat lo) (elems s)) /\
    Z.of_nat (length (elems s')) = hi - lo /\
    (forall k : nat, (k < Z.to_nat (hi - lo))%nat ->
       elems s' !! k = elems s !! (Z.to_nat lo + k)%nat) /\
    array s' = array s /\ well_formed s'.
Proof.
  intros (Ho & Hl & Hc) Hlo Hhi.
  unfold slice_expr, in_bounds, bounds. simpl.
  destruct (Z.leb_spec 0 lo); [|lia].
  destruct (Z.leb_spec lo hi); [|lia].
  destruct (Z.leb_spec hi (cap s)); [|lia]. simpl.
  eexists. split; [reflexivity|].
  assert (Helems :
    take (Z.to_nat (hi - lo)) (drop (Z.to_nat (off s + lo)) (array s))
    = take (Z.to_nat (hi - lo)) (drop (Z.to_nat lo) (elems s))).
  { unfold elems.
    replace (Z.to_nat (len s)) with (Z.to_nat lo + Z.to_nat (len s - lo))%nat
      by lia.
    rewrite <- take_drop_commute, take_take, drop_drop.
    f_equal; [lia | f_equal; lia]. }
  split; [exact Helems|]. split; [|split; [|split]].
  - unfold elems at 1. simpl. rewrite length_take, length_drop. lia.
  - intros k Hk. unfold elems at 1. simpl. rewrite Helems.
    rewrite lookup_take_lt by exact Hk. by rewrite lookup_drop.
  - reflexivity.
  - unfold well_formed. simpl. lia.
Qed.


(** X3: cutting a slice short loses nothing: [s[:hi]] keeps the backing array
    and the capacity, so slicing it up to the old length gives [s] back;
    in particular [s[:]] is [s]. *)
Theorem slice_cut_and_restore s (hi : Z) :
  well_formed s -> 0 <= hi <= len s ->
  exists s1,
    slice_expr s None (Some hi) = Ok s1 /\ len s1 = hi /\
    slice_expr s1 None (Some (len s)) = Ok s /\
    slice_expr s None None = Ok s.
Proof.
  intros (Ho & Hl & Hc) Hhi.
  unfold slice_expr, in_bounds, bounds. simpl.
  destruct (Z.leb_spec 0 hi); [|lia].
  destruct (Z.leb_spec hi (cap s)); [|lia]. simpl.
  eexists. split; [reflexivity|]. simpl. split; [lia|].
  destruct (Z.leb_spec 0 (len s)); [|lia].
  destruct (Z.leb_spec (len s) (cap s - 0)); [|lia].
  destruct (Z.leb_spec (len s) (cap s)); [|lia]. simpl.
  destruct s as [arr o l c]. simpl. split; do 2 f_equal; lia.
Qed.

End Facts.

End SliceOpsSpec.

(** ** Slices: [make], [copy], [append], [MapKeys] *)

Module SliceGrowSpec.
Import Exec GoInt GoIntFacts Slices SliceOps SliceOpsSpec.
Local Open Scope Z_scope.

Section Facts.
Context {T : Type}.
Implicit Types (s t : slice T) (xs : list T).


(** What [copy] leaves in [dst]. *)
Lemma copy_elems (dst src : slice T) :
  well_formed dst -> well_formed src ->
  elems (fst (copy dst src))
    = take (Z.to_nat (Z.min (len dst) (len src))) (elems src)
      ++ drop (Z.to_nat (Z.min (len dst) (len src))) (elems dst).
Proof.
  intros (Ho & Hl & Hc) Hsrc. pose proof (elems_length src Hsrc) as Hlen.
  simpl.
  set (n := Z.to_nat (Z.min (len dst) (len src))).
  set (o := Z.to_nat (off dst)).
  assert (Hn : length (take n (elems src)) = n)
    by (rewrite length_take; lia).
  assert (Ho' : length (take o (array dst)) = o)
    by (rewrite length_take; lia).
  unfold elems at 1. simpl. fold o. fold n.
  rewrite drop_app_length' by done.
  rewrite take_app, Hn.
  rewrite take_ge by lia. f_equal.
  unfold elems. fold o.
  rewrite !take_drop_commute, drop_drop. do 2 f_equal. lia.
Qed.

Lemma copy_well_formed (dst src : slice T) :
  well_formed dst -> well_formed src -> well_formed (fst (copy dst src)).
Proof.
  intros (Ho & Hl & Hc) Hsrc. pose proof (elems_length src Hsrc) as Hlen.
  unfold well_formed. simpl.
  rewrite !length_app, !length_take, length_drop. lia.
Qed.

(** X4: [copy] overwrites the first [min(len(dst), len(src))] elements of
    [dst] with those of [src], keeps the rest, and returns that number. *)
Theorem copy_spec (dst src : slice T) :
  well_formed dst -> well_formed src ->
  snd (copy dst src) = Z.min (len dst) (len src) /\
  elems (fst (copy dst src))
    = take (Z.to_nat (snd (copy dst src))) (elems src)
      ++ drop (Z.to_nat (snd (copy dst src))) (elems dst) /\
  len (fst (copy dst src)) = len dst /\
  cap (fst (copy dst src)) = cap dst /\
  well_formed (fst (copy dst src)).
Proof.
  intros Hdst Hsrc.
  split; [reflexivity|]. split; [|split; [reflexivity|split; [reflexivity|]]].
  - change (snd (copy dst src)) with (Z.min (len dst) (len src)).
    by apply copy_elems.
  - by apply copy_well_formed.
Qed.

(** X5: the growing idiom gives a slice with the same elements and the same
    length on a new backing array of capacity [(cap(s)+1)*2]. *)
Theorem grow_spec (zero : T) s :
  well_formed s -> (cap s + 1) * 2 <= MaxInt ->
  exists t,
    grow zero s = Ok t /\ elems t = elems s /\ len t = len s /\
    cap t = (cap s + 1) * 2 /\ cap s < cap t /\ well_formed t.
Proof.
  intros Hwf Hmax. pose proof Hwf as (Ho & Hl & Hc).
  assert (Hcap : mul (add (cap s) 1) 2 = (cap s + 1) * 2).
  { unfold mul, add. rewrite (wrap_in_range (cap s + 1)).
    - apply wrap_in_range. unfold in_range, MinInt, MaxInt, intSize in *. lia.
    - unfold in_range, MinInt, MaxInt, intSize in *. lia. }
  unfold grow. rewrite Hcap. unfold make.
  destruct (Z.ltb_spec (len s) 0); [lia|].
  destruct (Z.ltb_spec ((cap s + 1) * 2) (len s)); [lia|].
  set (t0 := {| array := replicate (Z.to_nat ((cap s + 1) * 2)) zero;
                off := 0; len := len s; cap := (cap s + 1) * 2 |}).
  assert (Hwf0 : well_formed t0).
  { unfold well_formed, t0. simpl. rewrite length_replicate. lia. }
  pose proof (copy_elems t0 s Hwf0 Hwf) as He.
  pose proof (copy_well_formed t0 s Hwf0 Hwf) as Hwf1.
  exists (fst (copy t0 s)). split; [reflexivity|].
  split; [|split; [reflexivity|split; [reflexivity|split; [simpl; lia|exact Hwf1]]]].
  rewrite He. simpl. rewrite Z.min_id.
  pose proof (elems_length s Hwf) as Hels.
  rewrite take_ge by lia. unfold elems at 2. simpl.
  rewrite drop_ge; [apply app_nil_r|]. rewrite length_take. lia.
Qed.


Section Append.
Variable zero : T.
Variable growcap : Z -> Z -> Z.
Hypothesis growcap_enough : forall old need, need <= growcap old need.


End Append.

(** X8: [MapKeys] returns the keys of the map, each once, in the order in
    which [range] visited them; the slice made at the start is never
    moved, whatever the runtime would do on growth, and ends full. *)
Theorem MapKeys_spec `{Countable T} {V} (zero : T) (growcap : Z -> Z -> Z)
    (m : gmap T V) (order : list T) :
  order ≡ₚ (map_to_list m).*1 ->
  MapKeys zero growcap order m
    = Ok {| array := order; off := 0;
            len := Z.of_nat (size m); cap := Z.of_nat (size m) |} /\
  (exists r, MapKeys zero growcap order m = Ok r /\ elems r = order) /\
  NoDup order /\
  (forall k, k ∈ order <-> is_Some (m !! k)).
Proof.
  intros Hperm.
  assert (Hlen : length order = size m).
  { by rewrite Hperm, length_fmap, length_map_to_list. }
  assert (Hfold : forall ks pre (j : nat),
    fold_left (fun r k => append zero growcap r [k]) ks
      {| array := pre ++ replicate (length ks + j) zero; off := 0;
         len := Z.of_nat (length pre);
         cap := Z.of_nat (length pre + length ks + j) |}
    = {| array := (pre ++ ks) ++ replicate j zero; off := 0;
         len := Z.of_nat (length pre + length ks);
         cap := Z.of_nat (length pre + length ks + j) |}).
  { induction ks as [|k ks IH]; intros pre j.
    - simpl. rewrite app_nil_r, !Nat.add_0_r. reflexivity.
    - cbn [fold_left]. unfold append at 2. cbn [len cap off array length].
      destruct (Z.leb_spec (Z.of_nat (length pre) + Z.of_nat 1)
                  (Z.of_nat (length pre + S (length ks) + j))); [|lia].
      replace (Z.to_nat (0 + Z.of_nat (length pre))) with (length pre) by lia.
      rewrite take_app_length. cbn [length].
      rewrite drop_app_ge by lia.
      replace (length pre + 1 - length pre)%nat with 1%nat by lia.
      change (drop 1 (replicate (S (length ks) + j) zero))
        with (replicate (length ks + j) zero).
      specialize (IH (pre ++ [k]) j).
      rewrite length_app in IH. cbn [length] in IH.
      rewrite <- (app_assoc pre [k] ks) in IH. cbn [app] in IH.
      etransitivity; [|etransitivity; [exact IH|]].
      * f_equal. f_equal; [by rewrite <- app_assoc | lia | lia].
      * f_equal; lia. }
  assert (Hrun : MapKeys zero growcap order m
    = Ok {| array := order; off := 0;
            len := Z.of_nat (size m); cap := Z.of_nat (size m) |}).
  { unfold MapKeys, make.
    destruct (Z.ltb_spec 0 0); [lia|].
    destruct (Z.ltb_spec (Z.of_nat (size m)) 0); [lia|].
    f_equal. rewrite Nat2Z.id, <- Hlen.
    specialize (Hfold order [] 0%nat). simpl in Hfold.
    rewrite !Nat.add_0_r, app_nil_r in Hfold. exact Hfold. }
  split; [exact Hrun|]. split; [|split].
  - eexists. split; [exact Hrun|]. unfold elems. simpl.
    rewrite Nat2Z.id, <- Hlen. apply take_ge. done.
  - rewrite Hperm. apply NoDup_fst_map_to_list.
  - intros k. rewrite Hperm, list_elem_of_fmap. split.
    + intros ([k' v] & -> & Hin). apply elem_of_map_to_list in Hin. by eexists.
    + intros [v Hv]. exists (k, v). split; [reflexivity|].
      by apply elem_of_map_to_list.
Qed.

End Facts.

End SliceGrowSpec.

(** ** Functions, pointers, structs and methods *)

Module FunctionsSpec.
Import Exec GoInt GoIntFacts Heap Fmt Functions.
Local Open Scope Z_scope.

Lemma wrap_add_r (x y : Z) : wrap (x + wrap y) = wrap (x + y).
Proof. by rewrite Z.add_comm, wrap_add_l, Z.add_comm. Qed.

Lemma wrap_wrap (x : Z) : wrap (wrap x) = wrap x.
Proof. apply wrap_in_range, wrap_range. Qed.

Lemma fold_add_wrap (nums : list Z) : forall acc,
  fold_left (fun total num => add total num) nums (wrap acc)
  = wrap (acc + sum_Z nums).
Proof.
  induction nums as [|n nums IH]; intros acc; simpl.
  - by rewrite Z.add_0_r.
  - unfold add at 2. rewrite wrap_add_l, IH. f_equal. lia.
Qed.

Lemma sum_Z_perm (xs ys : list Z) : xs ≡ₚ ys -> sum_Z xs = sum_Z ys.
Proof.
  induction 1; simpl; unfold sum_Z in *; simpl; lia.
Qed.

(** X9: [sum] prints the number of its arguments and their total; the total
    is the sum modulo the width of [int], so it is the sum itself whenever
    that fits in an [int] (whatever the partial sums do), and it does not
    depend on the order of the arguments. *)
Theorem sum_prints_len_and_total (nums : list Z) (p : process) :
  sum nums p
    = Ok (tt, {| os_args := os_args p; os_environ := os_environ p;
                 stdin := stdin p;
                 stdout := (stdout p ++ "len: "
                            ++ itoa (Z.of_nat (length nums)) ++ " total: "
                            ++ itoa (wrap (sum_Z nums)) ++ newline)%string |}) /\
  (in_range (sum_Z nums) -> wrap (sum_Z nums) = sum_Z nums) /\
  (forall nums', nums ≡ₚ nums' -> sum nums' p = sum nums p).
Proof.
  assert (Htotal : forall l,
    fold_left (fun total num => add total num) l 0 = wrap (sum_Z l)).
  { intros l. rewrite <- (wrap_in_range 0) at 1 by apply in_range_0.
    by rewrite fold_add_wrap. }
  split; [|split].
  - unfold sum, write_stdout. by rewrite Htotal.
  - apply wrap_in_range.
  - intros nums' Hperm. unfold sum. rewrite !Htotal.
    by rewrite (sum_Z_perm _ _ Hperm), Hperm.
Qed.

(** X10: [zeroval] changes no variable that exists when it is called: the
    caller's variable keeps its value. *)
Theorem zeroval_changes_nothing (h : gmap loc Z) (ival : Z) :
  exists h', zeroval ival h = Ok (tt, h') /\
             forall q, is_Some (h !! q) -> h' !! q = h !! q.
Proof.
  pose proof (is_fresh (dom h)) as Hfresh.
  unfold zeroval, bind, alloc, store. set (p := fresh (dom h)) in *.
  rewrite lookup_insert_eq. eexists. split; [reflexivity|].
  intros q [v Hq]. rewrite insert_insert_eq.
  apply lookup_insert_ne. intros <-.
  apply Hfresh, elem_of_dom. by eexists.
Qed.

(** X11: [zeroptr] sets the variable pointed to, and no other, to 0; with the
    nil pointer it panics and leaves no state. *)
Theorem zeroptr_zeroes_target (h : gmap loc Z) :
  (forall p, is_Some (h !! p) ->
     exists h', zeroptr (Some p) h = Ok (tt, h') /\
                h' !! p = Some 0 /\
                (forall q, q <> p -> h' !! q = h !! q) /\
                dom h' = dom h) /\
  is_ok (zeroptr None h) = false.
Proof.
  split; [|reflexivity].
  intros p [v Hp]. unfold zeroptr, store. rewrite Hp.
  eexists. split; [reflexivity|]. split; [apply lookup_insert_eq|].
  split.
  - intros q Hq. by apply lookup_insert_ne.
  - rewrite dom_insert_L. apply elem_of_dom_2 in Hp.
    apply subseteq_union_1_L. by apply singleton_subseteq_l.
Qed.

(** A run of [newPerson]. *)
Lemma newPerson_run (h : gmap loc person) (n : string) :
  exists p,
    newPerson n h = Ok (p, <[p := {| name := n; age := 42 |}]> h) /\
    h !! p = None.
Proof.
  pose proof (is_fresh (dom h)) as Hfresh.
  exists (fresh (dom h)). set (p := fresh (dom h)) in *.
  split; [|by apply not_elem_of_dom].
  unfold newPerson, bind, alloc, load, store, ret. fold p.
  rewrite lookup_insert_eq. simpl. rewrite lookup_insert_eq.
  by rewrite insert_insert_eq.
Qed.

(** X12: [newPerson] returns a pointer to a new [person] with the given name
    and age 42; the pointer is none that was in use, and every [person]
    that existed is as it was. *)
Theorem newPerson_is_fresh (h : gmap loc person) (n : string) :
  exists p,
    newPerson n h = Ok (p, <[p := {| name := n; age := 42 |}]> h) /\
    h !! p = None /\
    (forall q, is_Some (h !! q) ->
       <[p := {| name := n; age := 42 |}]> h !! q = h !! q).
Proof.
  destruct (newPerson_run h n) as (p & Hrun & Hp).
  exists p. split; [exact Hrun|]. split; [exact Hp|].
  intros q [v Hq]. apply lookup_insert_ne. intros <-. congruence.
Qed.

(** X13: two calls of [newPerson] never return the same pointer. *)
Theorem newPerson_twice_distinct (h : gmap loc person) (n1 n2 : string) :
  exists p1 p2 h',
    bind (newPerson n1) (fun p1 => bind (newPerson n2) (fun p2 => ret (p1, p2))) h
      = Ok ((p1, p2), h') /\
    p1 <> p2 /\
    h' !! p1 = Some {| name := n1; age := 42 |} /\
    h' !! p2 = Some {| name := n2; age := 42 |}.
Proof.
  destruct (newPerson_run h n1) as (p1 & H1 & Hp1).
  destruct (newPerson_run (<[p1 := {| name := n1; age := 42 |}]> h) n2)
    as (p2 & H2 & Hp2).
  assert (Hne : p1 <> p2).
  { intros ->. by rewrite lookup_insert_eq in Hp2. }
  exists p1, p2. eexists. unfold bind. rewrite H1, H2. unfold ret.
  split; [reflexivity|]. split; [exact Hne|]. split.
  - rewrite lookup_insert_ne by done. apply lookup_insert_eq.
  - apply lookup_insert_eq.
Qed.

(** X14: [perim] is twice the sum of the sides modulo the width of [int]: it
    is exact whenever the perimeter itself fits in an [int], and it is the
    same for a rectangle and the one with its sides exchanged; [area] reads
    the rectangle through the pointer without changing it, gives the
    product of the sides modulo the width of [int], and panics on nil. *)
Theorem rect_area_perim (r : rect) (h : gmap loc rect) (p : loc) :
  perim r = wrap (2 * (width r + height r)) /\
  (in_range (2 * (width r + height r)) ->
     perim r = 2 * (width r + height r)) /\
  perim {| width := height r; height := width r |} = perim r /\
  (h !! p = Some r ->
     area (Some p) h = Ok (wrap (width r * height r), h) /\
     (in_range (width r * height r) ->
        area (Some p) h = Ok (width r * height r, h))) /\
  is_ok (area None h) = false.
Proof.
  assert (Hperim : forall r', perim r' = wrap (2 * (width r' + height r'))).
  { intros r'. unfold perim, add, mul. rewrite wrap_add_l, wrap_add_r.
    f_equal. lia. }
  split; [apply Hperim|]. split; [|split; [|split; [|reflexivity]]].
  - intros Hr. rewrite Hperim. by apply wrap_in_range.
  - rewrite !Hperim. simpl. f_equal. lia.
  - intros Hp. unfold area, bind, load, ret, mul. rewrite Hp.
    split; [reflexivity|]. intros Hr. by rewrite wrap_in_range.
Qed.

(** Decimal digits and the minus sign: what [itoa] is made of. *)
Lemma string_of_uint_no_space (d : Decimal.uint) :
  no_space (NilEmpty.string_of_uint d) = true.
Proof. induction d; simpl; done. Qed.

Lemma itoa_no_space (x : Z) : no_space (itoa x) = true.
Proof.
  unfold itoa. destruct (Z.to_int x) as [d|d]; simpl.
  - destruct d; try apply string_of_uint_no_space. reflexivity.
  - destruct d; try apply string_of_uint_no_space. reflexivity.
Qed.

Lemma to_int_not_nil (x : Z) :
  Z.to_int x <> Decimal.Pos Decimal.Nil /\ Z.to_int x <> Decimal.Neg Decimal.Nil.
Proof.
  split; intros Heq; pose proof (DecimalZ.of_to x) as Hx;
    rewrite Heq in Hx; simpl in Hx; subst x; discriminate.
Qed.

(** [itoa] can be read back. *)
Lemma itoa_inj (x y : Z) : itoa x = itoa y -> x = y.
Proof.
  unfold itoa. intros Heq.
  destruct (to_int_not_nil x) as [Hx1 Hx2].
  destruct (to_int_not_nil y) as [Hy1 Hy2].
  pose proof (NilZero.isi _ Hx1 Hx2) as Hrx.
  pose proof (NilZero.isi _ Hy1 Hy2) as Hry.
  rewrite Heq, Hry in Hrx. injection Hrx as Hxy.
  by rewrite <- (DecimalZ.of_to x), <- (DecimalZ.of_to y), Hxy.
Qed.

Lemma append_inj_l (a x y : string) :
  (a ++ x)%string = (a ++ y)%string -> x = y.
Proof.
  induction a as [|c a IH]; [done|].
  change (String c (a ++ x) = String c (a ++ y) -> x = y)%string.
  intros [= Heq]. by apply IH.
Qed.

Lemma split_at_space (a b x y : string) :
  no_space a = true -> no_space b = true ->
  (a ++ String " " x)%string = (b ++ String " " y)%string ->
  a = b /\ x = y.
Proof.
  revert b. induction a as [|c a IH]; intros [|c' b] Ha Hb.
  - by intros [= ->].
  - change (String " " x = String c' (b ++ String " " y) -> "" = String c' b /\ x = y)%string.
    intros [= <- _]. discriminate.
  - change (String c (a ++ String " " x) = String " " y -> String c a = "" /\ x = y)%string.
    intros [= -> _]. discriminate.
  - change (String c (a ++ String " " x) = String c' (b ++ String " " y)
            -> String c a = String c' b /\ x = y)%string.
    intros [= <- Heq]. simpl in Ha, Hb.
    destruct (Ascii.eqb c " "); [discriminate|].
    destruct (IH b Ha Hb Heq) as [-> ->]. done.
Qed.

(** X15: [describe] of two bases is the same text only when their [num] is the
    same, and the method promoted to [container] is the one of the
    embedded [base]. *)
Theorem describe_inj (b1 b2 : base) (co : container) :
  (describe b1 = describe b2 -> b1 = b2) /\
  container_describe co = describe (container_base co) /\
  container_describe co
    = ("base with num=" ++ itoa (container_num co))%string.
Proof.
  split; [|split; reflexivity].
  unfold describe. intros Heq. apply append_inj_l, itoa_inj in Heq.
  destruct b1, b2. simpl in Heq. by subst.
Qed.

(** X16: the message of an [argError] tells the error: two [argError]s with the
    same [Error()] have the same [arg] and the same [prob]. *)
Theorem argError_Error_inj (e1 e2 : Errors.argError) :
  Errors.argError_Error e1 = Errors.argError_Error e2 -> e1 = e2.
Proof.
  unfold Errors.argError_Error, Errors.Sprintf_d_s. intros Heq.
  change (itoa (Errors.arg e1) ++ String " " ("- " ++ Errors.prob e1)
          = itoa (Errors.arg e2) ++ String " " ("- " ++ Errors.prob e2))%string
    in Heq.
  apply split_at_space in Heq as [Ha Hp]; try apply itoa_no_space.
  apply itoa_inj in Ha. apply (append_inj_l "- ") in Hp.
  destruct e1, e2. simpl in *. by subst.
Qed.

End FunctionsSpec.

(** ** Several uses of [List[T]] in one program *)

Module GenericsUseSpec.
Import Exec Heap Generics GenericsInv GenericsSpec GenericsUse.

Section ListT.
Context {T : Type}.
Implicit Types (h : gmap loc (element T)) (lst : List T) (vs : list T).
Implicit Types (cells : list (loc * T)).

Lemma is_list_with_is_list h lst cells :
  is_list_with h lst cells -> is_list h lst cells.*2.
Proof. intros (Hnd & Hc & Ht). by exists cells. Qed.

(** X17: [GetAll] only reads: the list it has walked can be pushed on and
    walked again, and each walk returns all values pushed so far. *)
Theorem GetAll_between_pushes (vs ws : list T) h :
  exists h',
    push_get_push_get vs ws h = Ok ((vs, vs ++ ws), h').
Proof.
  destruct (PushAll_is_list vs h empty [] (is_list_empty h))
    as (lst1 & h1 & Hpush1 & Hl1). simpl in Hl1.
  destruct (PushAll_is_list ws h1 lst1 vs Hl1) as (lst2 & h2 & Hpush2 & Hl2).
  exists h2. unfold push_get_push_get, bind.
  rewrite Hpush1, (GetAll_is_list _ _ _ Hl1), Hpush2, (GetAll_is_list _ _ _ Hl2).
  reflexivity.
Qed.

(** [Push] adds one new cell at the end and touches, besides it, only the
    cell that was last. *)
Lemma Push_cells h lst cells v :
  is_list_with h lst cells ->
  exists lst' h' p,
    Push lst v h = Ok (lst', h') /\ h !! p = None /\
    is_list_with h' lst' (cells ++ [(p, v)]) /\
    (forall q, is_Some (h !! q) -> q ∉ cells.*1 -> h' !! q = h !! q).
Proof.
  intros (Hnd & Hc & Htail).
  pose proof (is_fresh (dom h)) as Hfresh.
  set (p := fresh (dom h)) in *.
  assert (Hp : h !! p = None) by (by apply not_elem_of_dom).
  unfold Push. destruct cells as [|[t vt] cells0 _] using rev_ind.
  - simpl in *. rewrite Htail. unfold bind, alloc, ret. simpl. fold p.
    eexists _, _, p. split; [reflexivity|]. split; [exact Hp|]. split.
    + repeat split; simpl.
      * apply NoDup_singleton.
      * exists None. split; [apply lookup_insert_eq | reflexivity].
    + intros q [x Hq] _. apply lookup_insert_ne. intros <-. congruence.
  - rewrite fmap_app in Htail, Hnd. simpl in Htail, Hnd.
    rewrite last_snoc in Htail. rewrite Htail.
    apply chain_app in Hc as (b & Hc0 & (-> & nxt & Ht & ->)).
    apply NoDup_app in Hnd as (Hnd0 & Hnt & _).
    assert (Hpt : p <> t) by (intros ->; congruence).
    unfold bind, alloc, load, store, ret. simpl. fold p.
    rewrite lookup_insert_ne by done. rewrite Ht. simpl.
    rewrite lookup_insert_ne by done. rewrite Ht. simpl.
    rewrite lookup_insert_eq.
    eexists _, _, p. split; [reflexivity|]. split; [exact Hp|]. split.
    + unfold is_list_with. simpl. rewrite !fmap_app. simpl.
      split; [|split].
      * rewrite <- app_assoc. simpl.
        apply NoDup_app. split; [exact Hnd0|]. split.
        { intros q Hq Hq'. apply elem_of_cons in Hq' as [->|Hq'].
          { eapply Hnt; [exact Hq | apply list_elem_of_singleton; reflexivity]. }
          apply list_elem_of_singleton in Hq' as ->.
          destruct (chain_allocated _ _ _ _ _ Hc0 Hq) as [? ?]. congruence. }
        apply NoDup_cons. split; [|apply NoDup_singleton].
        intros Hin. by apply list_elem_of_singleton in Hin.
      * rewrite <- app_assoc. apply chain_app. exists (Some t). split.
        { apply (chain_frame h); [exact Hc0|]. intros q Hq.
          rewrite !lookup_insert_ne; [reflexivity| |].
          { intros ->. destruct (chain_allocated _ _ _ _ _ Hc0 Hq) as [? ?].
            congruence. }
          { intros ->. eapply Hnt; [exact Hq|].
            apply list_elem_of_singleton; reflexivity. } }
        simpl. split; [reflexivity|]. exists (Some p).
        split; [apply lookup_insert_eq|]. split; [reflexivity|].
        exists None. split; [|reflexivity].
        rewrite lookup_insert_ne by done. apply lookup_insert_eq.
      * by rewrite last_snoc.
    + intros q [x Hq] Hnot. rewrite !lookup_insert_ne; [reflexivity| |].
      * intros <-. congruence.
      * intros <-. apply Hnot. rewrite fmap_app. simpl.
        apply elem_of_app. right. apply list_elem_of_singleton. reflexivity.
Qed.

Lemma apart_empty h : apart h empty empty [] [].
Proof.
  repeat split; try constructor. intros q Hq. by apply elem_of_nil in Hq.
Qed.

Lemma apart_sym h la lb ca cb : apart h la lb ca cb -> apart h lb la cb ca.
Proof.
  intros (Ha & Hb & Hdis). repeat split; try apply Ha; try apply Hb.
  intros q Hq Hq'. by apply (Hdis q).
Qed.

(** A push on one of two lists that are apart leaves the other as it is,
    and the two stay apart. *)
Lemma Push_apart h la lb ca cb v :
  apart h la lb ca cb ->
  exists la' h' p,
    Push la v h = Ok (la', h') /\ apart h' la' lb (ca ++ [(p, v)]) cb.
Proof.
  intros (Ha & Hb & Hdis).
  destruct (Push_cells h la ca v Ha) as (la' & h' & p & Hpush & Hp & Ha' & Hframe).
  exists la', h', p. split; [exact Hpush|]. split; [exact Ha'|].
  destruct Hb as (Hndb & Hcb & Htb). split.
  - split; [exact Hndb|]. split; [|exact Htb].
    apply (chain_frame h); [exact Hcb|]. intros q Hq. apply Hframe.
    + by eapply chain_allocated.
    + intros Hq'. by apply (Hdis q).
  - intros q Hq Hq'. rewrite fmap_app in Hq. apply elem_of_app in Hq as [Hq|Hq].
    + by apply (Hdis q).
    + simpl in Hq. apply list_elem_of_singleton in Hq as ->.
      destruct (chain_allocated _ _ _ _ _ Hcb Hq') as [? ?]. congruence.
Qed.

Lemma push_both_apart (sched : list (bool * T)) : forall h la lb ca cb,
  apart h la lb ca cb ->
  exists la' lb' h' ca' cb',
    push_both la lb sched h = Ok ((la', lb'), h') /\
    apart h' la' lb' ca' cb' /\
    ca'.*2 = ca.*2 ++ pushed_on true sched /\
    cb'.*2 = cb.*2 ++ pushed_on false sched.
Proof.
  induction sched as [|[[|] v] sched IH]; intros h la lb ca cb Hap.
  - exists la, lb, h, ca, cb. simpl. by rewrite !app_nil_r.
  - destruct (Push_apart h la lb ca cb v Hap) as (la1 & h1 & p & Hpush & Hap1).
    destruct (IH h1 la1 lb _ _ Hap1)
      as (la' & lb' & h' & ca' & cb' & Hrun & Hap' & Hva & Hvb).
    exists la', lb', h', ca', cb'. simpl. unfold bind. rewrite Hpush.
    split; [exact Hrun|]. split; [exact Hap'|]. split; [|exact Hvb].
    rewrite Hva, fmap_app. simpl. unfold pushed_on. simpl.
    by rewrite <- app_assoc.
  - apply apart_sym in Hap.
    destruct (Push_apart h lb la cb ca v Hap) as (lb1 & h1 & p & Hpush & Hap1).
    apply apart_sym in Hap1.
    destruct (IH h1 la lb1 _ _ Hap1)
      as (la' & lb' & h' & ca' & cb' & Hrun & Hap' & Hva & Hvb).
    exists la', lb', h', ca', cb'. simpl. unfold bind. rewrite Hpush.
    split; [exact Hrun|]. split; [exact Hap'|]. split; [exact Hva|].
    rewrite Hvb, fmap_app. simpl. unfold pushed_on. simpl.
    by rewrite <- app_assoc.
Qed.

(** X18: two lists in one heap do not disturb each other: however the pushes
    on them are interleaved, [GetAll] of each returns the values pushed on
    it, in push order. *)
Theorem two_lists_independent (sched : list (bool * T)) h :
  exists h',
    two_lists sched h
    = Ok ((pushed_on true sched, pushed_on false sched), h').
Proof.
  destruct (push_both_apart sched h empty empty [] [] (apart_empty h))
    as (la & lb & h' & ca & cb & Hrun & (Ha & Hb & _) & Hva & Hvb).
  simpl in Hva, Hvb.
  exists h'. unfold two_lists, bind. rewrite Hrun. simpl.
  rewrite (GetAll_is_list h' la ca.*2) by (by apply is_list_with_is_list).
  rewrite (GetAll_is_list h' lb cb.*2) by (by apply is_list_with_is_list).
  unfold ret. by rewrite Hva, Hvb.
Qed.

End ListT.

Example two_lists_run :
  Exec.omap fst (two_lists [(true, 10%Z); (false, 7%Z); (true, 13%Z)] ∅)
  = Ok ([10%Z; 13%Z], [7%Z]).
Proof. vm_compute. reflexivity. Qed.

End GenericsUseSpec.

(** ** The worker-pool program: results, waiting and termination *)

Module WorkerPoolAccountSpec.
Import GoInt GoIntFacts WorkerPool WorkerPoolInv WorkerPoolSpec.
Import WorkerPoolAccount.
Local Open Scope Z_scope.

Lemma Account_init : Account init [].
Proof.
  constructor; try done.
  intros k. simpl. rewrite lookup_empty. split; [by intros [? ?]|lia].
Qed.

(** Changing the program point of one worker. *)
Lemma workers_update (ws : gmap Z worker_pc) id old new :
  ws !! id = Some old ->
  map_to_list ws ≡ₚ (id, old) :: map_to_list (delete id ws) /\
  map_to_list (<[id := new]> ws) ≡ₚ (id, new) :: map_to_list (delete id ws).
Proof.
  intros Hid. split.
  - symmetry. by apply map_to_list_delete.
  - rewrite <- insert_delete_eq. apply map_to_list_insert, lookup_delete_eq.
Qed.

Lemma received_snoc past e :
  received (past ++ [e]) = received past ++ from_option (fun v => [v]) [] (result_received e).
Proof.
  unfold received. rewrite omap_app. simpl.
  by destruct (result_received e).
Qed.

Lemma printed_snoc past e :
  printed (past ++ [e]) = printed past ++ from_option (fun l => [l]) [] (line_printed e).
Proof.
  unfold printed. rewrite omap_app. simpl.
  by destruct (line_printed e).
Qed.

Lemma sent_jobs_length pc : (length (sent_jobs pc) <= 5)%nat.
Proof. unfold sent_jobs. rewrite length_take. simpl. lia. Qed.

(** The buffers never hold more than the five jobs there are. *)
Lemma Account_buffers st past :
  Account st past ->
  (length (buf (jobs_chan st)) + length (held (workers st))
   + length (buf (results_chan st)) + length (received past)
   = length (sent_jobs (main_at st)))%nat.
Proof.
  intros HA. pose proof (acc_balance _ _ HA) as Hbal.
  apply Permutation_length in Hbal.
  rewrite !length_app, !length_fmap in Hbal. lia.
Qed.

(** The parts of the account that a step leaves as they are. *)
Ltac quiet :=
  rewrite ?received_snoc, ?printed_snoc; simpl;
  rewrite ?app_nil_r, ?length_app; simpl;
  first [assumption | done | lia].

(** A step of [main] keeps the account. *)
Lemma step_main_Account st past e st' :
  Account st past -> step_main st = Some (e, st') ->
  Account st' (past ++ [e]).
Proof.
  intros HA Hstep.
  pose proof (step_main_Inv _ _ _ _ (acc_base _ _ HA) Hstep) as Hbase'.
  pose proof (Account_buffers _ _ HA) as Hbuf.
  pose proof (sent_jobs_length (main_at st)) as Hsl.
  destruct HA as [Hbase [Hcj Hcr] Hbal Hcount Hrange Hprint Hspawn Hret Hsteps].
  pose proof (inv_send_range _ _ Hbase) as Hsr.
  pose proof (inv_jobs_closed _ _ Hbase) as Hjc.
  pose proof (inv_results_open _ _ Hbase) as Hro.
  destruct st as [jc rc pc ws pk]. unfold step_main in Hstep.
  unfold steps_left in *. simpl in *.
  destruct pc as [i|i| |i|i r|]; simpl in *; rewrite ?app_nil_r in Hprint.
  - (* at [go worker(i)] *)
    destruct (Z.leb_spec i numWorkers) as [Hi|Hi]; injection Hstep as <- <-.
    + unfold numWorkers in *. rewrite add_1_small in Hbase' |- * by lia.
      assert (Hnew : ws !! i = None).
      { apply eq_None_not_Some. rewrite Hspawn. lia. }
      pose proof (map_to_list_insert ws i WRange Hnew) as Hperm.
      assert (Hheld : held (<[i := WRange]> ws) ≡ₚ held ws).
      { unfold held. by rewrite Hperm. }
      assert (Hlive : live (<[i := WRange]> ws) ≡ₚ i :: live ws).
      { unfold live. by rewrite Hperm. }
      constructor; simpl; try solve [quiet];
        try solve [intros id Hid; by destruct (Hret id Hid)];
        try solve [unfold steps_left; simpl; rewrite ?length_app; simpl;
                   unfold numWorkers; lia].
      * by rewrite Hheld, received_snoc, app_nil_r.
      * intros k. rewrite lookup_insert. case_decide; subst.
        { split; [lia|by eexists]. }
        rewrite Hspawn. lia.
      * intros id Hid. rewrite lookup_insert in Hid. case_decide; [done|].
        by destruct (Hret id Hid).
      * unfold steps_left. simpl. rewrite Hheld, Hlive, length_app. simpl.
        unfold numWorkers. lia.
    + unfold numWorkers in *. assert (i = 4) as -> by lia.
      constructor; simpl; try solve [quiet];
        try solve [intros id Hid; by destruct (Hret id Hid)];
        try solve [unfold steps_left; simpl; rewrite ?length_app; simpl;
                   unfold numWorkers; lia].
  - (* at [jobs <- i] *)
    destruct (Z.leb_spec i 5) as [Hi|Hi].
    + unfold send in Hstep. rewrite Hjc in Hstep.
      destruct (length (buf jc) <? capacity jc)%nat; [|discriminate].
      injection Hstep as <- <-. rewrite add_1_small in Hbase' |- * by lia.
      assert (Hsent : sent_jobs (MSend (i + 1)) = sent_jobs (MSend i) ++ [i]).
      { assert (Hcases : i = 1 \/ i = 2 \/ i = 3 \/ i = 4 \/ i = 5) by lia.
        by destruct Hcases as [->|[->|[->|[->| ->]]]]. }
      assert (Hlen : length (sent_jobs (MSend i)) = Z.to_nat (i - 1)).
      { unfold sent_jobs. simpl. rewrite length_take. simpl. lia. }
      constructor; simpl; try solve [quiet];
        try solve [intros id Hid; by destruct (Hret id Hid)];
        try solve [unfold steps_left; simpl; rewrite ?length_app; simpl;
                   unfold numWorkers; lia].
      * rewrite Hsent, received_snoc, app_nil_r, !fmap_app, <- Hbal. simpl.
        solve_Permutation.
      * unfold steps_left. simpl. rewrite Hsent, !length_app. simpl. lia.
    + injection Hstep as <- <-. assert (i = 6) as -> by lia.
      constructor; simpl; try solve [quiet];
        try solve [intros id Hid; by destruct (Hret id Hid)];
        try solve [unfold steps_left; simpl; rewrite ?length_app; simpl;
                   unfold numWorkers; lia].
  - (* at [close(jobs)] *)
    unfold close in Hstep. rewrite Hjc in Hstep. injection Hstep as <- <-.
    constructor; simpl; try solve [quiet];
        try solve [intros id Hid; by destruct (Hret id Hid)];
        try solve [unfold steps_left; simpl; rewrite ?length_app; simpl;
                   unfold numWorkers; lia].
  - (* at [result := <-results] *)
    destruct (Z.leb_spec i 5) as [Hi|Hi].
    + unfold recv in Hstep. destruct (buf rc) as [|v rest] eqn:Hrc.
      { rewrite Hro in Hstep. discriminate. }
      injection Hstep as <- <-.
      constructor; simpl; try solve [quiet];
        try solve [intros id Hid; by destruct (Hret id Hid)];
        try solve [unfold steps_left; simpl; rewrite ?length_app; simpl;
                   unfold numWorkers; lia].
      * rewrite received_snoc. simpl. rewrite <- Hbal. solve_Permutation.
      * rewrite received_snoc, printed_snoc, fmap_app, Hprint. simpl.
        by rewrite !app_nil_r.
    + injection Hstep as <- <-. assert (i = 6) as -> by lia.
      constructor; simpl; try solve [quiet];
        try solve [intros id Hid; by destruct (Hret id Hid)];
        try solve [unfold steps_left; simpl; rewrite ?length_app; simpl;
                   unfold numWorkers; lia].
  - (* at [fmt.Println("Result:", result)] *)
    injection Hstep as <- <-. rewrite add_1_small in Hbase' |- * by lia.
    constructor; simpl; try solve [quiet];
        try solve [intros id Hid; by destruct (Hret id Hid)];
        try solve [unfold steps_left; simpl; rewrite ?length_app; simpl;
                   unfold numWorkers; lia].
  - discriminate.
Qed.

(** A step of a worker keeps the account. *)
Lemma step_worker_Account id st past e st' :
  Account st past -> step_worker id st = Some (e, st') ->
  Account st' (past ++ [e]).
Proof.
  intros HA Hstep.
  pose proof (step_worker_Inv _ _ _ _ _ (acc_base _ _ HA) Hstep) as Hbase'.
  destruct HA as [Hbase [Hcj Hcr] Hbal Hcount Hrange Hprint Hspawn Hret Hsteps].
  pose proof (inv_jobs_closed _ _ Hbase) as Hjc.
  pose proof (inv_results_open _ _ Hbase) as Hro.
  destruct st as [jc rc pc ws pk]. unfold step_worker in Hstep.
  unfold steps_left in *. simpl in *.
  destruct (ws !! id) as [wpc|] eqn:Hid; [|discriminate].
  assert (Hdom : forall new k,
    is_Some (<[id := new]> ws !! k) <-> 1 <= k < spawned_below pc).
  { intros new k. rewrite <- Hspawn, lookup_insert. case_decide; subst.
    - split; [intros _; by eexists | intros _; by eexists].
    - reflexivity. }
  destruct wpc as [|job|]; [| |discriminate].
  - (* at [for job := range jobs] *)
    destruct (workers_update ws id WRange (WSend 0) Hid) as [Hold _].
    unfold recv in Hstep. destruct (buf jc) as [|job rest] eqn:Hjobs.
    + destruct (closed jc) eqn:Hc; [|discriminate]. injection Hstep as <- <-.
      destruct (workers_update ws id WRange WReturned Hid) as [_ Hnew].
      assert (Hheld : held (<[id := WReturned]> ws) ≡ₚ held ws).
      { unfold held. by rewrite Hnew, Hold. }
      assert (Hlive : live ws ≡ₚ id :: live (<[id := WReturned]> ws)).
      { unfold live. by rewrite Hnew, Hold. }
      constructor; simpl; try solve [quiet].
      * rewrite Hjobs, Hheld. quiet.
      * unfold steps_left. simpl. rewrite Hheld, Hjobs, length_app.
        rewrite Hlive in Hsteps. simpl in *. lia.
    + injection Hstep as <- <-.
      destruct (workers_update ws id WRange (WSend job) Hid) as [_ Hnew].
      assert (Hheld : held (<[id := WSend job]> ws) ≡ₚ job :: held ws).
      { unfold held. by rewrite Hnew, Hold. }
      assert (Hlive : live (<[id := WSend job]> ws) ≡ₚ live ws).
      { unfold live. by rewrite Hnew, Hold. }
      constructor; simpl; try solve [quiet].
      * rewrite Hheld, received_snoc, app_nil_r, <- Hbal. simpl.
        solve_Permutation.
      * intros id' Hid'. rewrite lookup_insert in Hid'.
        case_decide; [done|]. by destruct (Hret id' Hid').
      * unfold steps_left. simpl. rewrite Hheld, Hlive, length_app.
        simpl in *. lia.
  - (* at [results <- job * 2] *)
    destruct (workers_update ws id (WSend job) WRange Hid) as [Hold Hnew].
    assert (Hheld : held ws ≡ₚ job :: held (<[id := WRange]> ws)).
    { unfold held. by rewrite Hnew, Hold. }
    assert (Hlive : live (<[id := WRange]> ws) ≡ₚ live ws).
    { unfold live. by rewrite Hnew, Hold. }
    unfold send in Hstep. rewrite Hro in Hstep.
    destruct (length (buf rc) <? capacity rc)%nat; [|discriminate].
    injection Hstep as <- <-.
    constructor; simpl; try solve [quiet].
    + rewrite received_snoc, app_nil_r, <- Hbal, Hheld. simpl.
      solve_Permutation.
    + intros id' Hid'. rewrite lookup_insert in Hid'.
      case_decide; [done|]. by destruct (Hret id' Hid').
    + unfold steps_left. simpl. rewrite Hlive, length_app.
      rewrite Hheld in Hsteps. simpl in *. lia.
Qed.

Lemma step_Account g st past e st' :
  Account st past -> step g st = Some (e, st') -> Account st' (past ++ [e]).
Proof.
  intros HA. unfold step. destruct (halted st); [discriminate|].
  destruct g; [by apply step_main_Account | by apply step_worker_Account].
Qed.

(** Every execution keeps the account. *)
Lemma run_from_Account sched : forall st past,
  Account st past ->
  Account (snd (run_from st sched)) (past ++ fst (run_from st sched)).
Proof.
  induction sched as [|g sched IH]; intros st past HA; simpl.
  - by rewrite app_nil_r.
  - destruct (step g st) as [[e st']|] eqn:Hstep; [|by apply IH].
    specialize (IH st' (past ++ [e]) (step_Account _ _ _ _ _ HA Hstep)).
    destruct (run_from st' sched) as [tr fin]. simpl in *.
    by rewrite <- app_assoc in IH.
Qed.

Lemma run_Account sched :
  Account (snd (run sched)) (fst (run sched)).
Proof. apply (run_from_Account sched init [] Account_init). Qed.

Lemma doubled_jobs : dbl <$> [1; 2; 3; 4; 5] = [2; 4; 6; 8; 10].
Proof. vm_compute. reflexivity. Qed.

Lemma received_doubled st past :
  Account st past -> received past ⊆+ [2; 4; 6; 8; 10].
Proof.
  intros HA. rewrite <- doubled_jobs.
  etransitivity; [|apply fmap_submseteq, sublist_submseteq,
                    (sublist_take _ (progress (main_at st)))].
  fold (sent_jobs (main_at st)). rewrite <- (acc_balance _ _ HA).
  do 3 apply submseteq_inserts_l. reflexivity.
Qed.

Lemma returned_all st past :
  Account st past -> main_at st = MReturned ->
  received past ≡ₚ [2; 4; 6; 8; 10] /\
  printed past = result_line <$> received past.
Proof.
  intros HA Hpc. split.
  - apply submseteq_length_Permutation; [by eapply received_doubled|].
    rewrite (acc_count _ _ HA), Hpc. simpl. lia.
  - pose proof (acc_printed _ _ HA) as Hp. rewrite Hpc in Hp. simpl in Hp.
    by rewrite app_nil_r in Hp.
Qed.

(** X19: whatever the schedule, each value [main] receives from [results] is
    the double of one of the jobs 1 to 5, none is received twice, and the
    lines printed are those of the values received, in the order received;
    when [main] has returned it has received and printed 2, 4, 6, 8 and 10,
    in some order. *)
Theorem results_are_the_doubled_jobs (sched : list goroutine) :
  received (fst (run sched)) ⊆+ [2; 4; 6; 8; 10] /\
  printed (fst (run sched))
    `prefix_of` (result_line <$> received (fst (run sched))) /\
  (main_at (snd (run sched)) = MReturned ->
     received (fst (run sched)) ≡ₚ [2; 4; 6; 8; 10] /\
     printed (fst (run sched))
       = result_line <$> received (fst (run sched))).
Proof.
  pose proof (run_Account sched) as HA. split; [|split].
  - by eapply received_doubled.
  - rewrite (acc_printed _ _ HA). by eexists.
  - by apply returned_all.
Qed.

(** X20: the two channels never hold more than five values between them, so
    with buffers of ten no send ever has to wait. *)
Theorem sends_never_wait (sched : list goroutine) (v : Z) :
  (length (buf (jobs_chan (snd (run sched))))
   + length (buf (results_chan (snd (run sched)))) <= 5)%nat /\
  send (jobs_chan (snd (run sched))) v <> SendBlocks /\
  send (results_chan (snd (run sched))) v <> SendBlocks.
Proof.
  pose proof (run_Account sched) as HA.
  pose proof (Account_buffers _ _ HA) as Hbuf.
  pose proof (sent_jobs_length (main_at (snd (run sched)))) as Hsl.
  destruct (acc_caps _ _ HA) as [Hcj Hcr].
  split; [lia|]. unfold send. rewrite Hcj, Hcr. split.
  - destruct (closed _); [done|].
    destruct (Nat.ltb_spec (length (buf (jobs_chan (snd (run sched))))) 10);
      [done|lia].
  - destruct (closed _); [done|].
    destruct (Nat.ltb_spec (length (buf (results_chan (snd (run sched))))) 10);
      [done|lia].
Qed.

Lemma held_worker (ws : gmap Z worker_pc) job :
  job ∈ held ws -> exists id, ws !! id = Some (WSend job).
Proof.
  unfold held. rewrite list_elem_of_omap. intros ([id wpc] & Hin & Hjob).
  apply elem_of_map_to_list in Hin. exists id.
  unfold job_held in Hjob. simpl in Hjob. destruct wpc; try discriminate.
  by injection Hjob as ->.
Qed.

Lemma worker_held (ws : gmap Z worker_pc) id job :
  ws !! id = Some (WSend job) -> job ∈ held ws.
Proof.
  intros Hid. unfold held. rewrite list_elem_of_omap.
  exists (id, WSend job). split; [by apply elem_of_map_to_list|done].
Qed.

(** While the program has not ended, some goroutine can take a step. *)
Lemma Account_not_stuck st past :
  Account st past -> halted st = false ->
  exists g e st', step g st = Some (e, st').
Proof.
  intros HA Hrun.
  pose proof (Account_buffers _ _ HA) as Hbuf.
  destruct HA as [Hbase [Hcj Hcr] Hbal Hcount Hrange Hprint Hspawn Hret Hsteps].
  pose proof (inv_send_range _ _ Hbase) as Hsr.
  pose proof (inv_jobs_closed _ _ Hbase) as Hjc.
  pose proof (inv_results_open _ _ Hbase) as Hro.
  unfold step. rewrite Hrun.
  destruct st as [jc rc pc ws pk]. simpl in *.
  destruct pc as [i|i| |i|i r|]; simpl in *.
  - exists GMain. unfold step_main. simpl. destruct (i <=? numWorkers); eauto.
  - exists GMain. unfold step_main. simpl.
    destruct (Z.leb_spec i 5) as [Hi|Hi]; [|eauto].
    unfold send. rewrite Hjc, Hcj.
    assert (Hlen : (length (sent_jobs (MSend i)) <= 5)%nat)
      by apply sent_jobs_length.
    destruct (Nat.ltb_spec (length (buf jc)) 10); [eauto|lia].
  - exists GMain. unfold step_main, close. simpl. rewrite Hjc. eauto.
  - destruct (Z.leb_spec i 5) as [Hi|Hi].
    2:{ exists GMain. unfold step_main. simpl.
        destruct (Z.leb_spec i 5); [lia|eauto]. }
    destruct (buf rc) as [|v rest] eqn:Hrc.
    2:{ exists GMain. unfold step_main, recv. simpl.
        destruct (Z.leb_spec i 5); [|lia]. rewrite Hrc. eauto. }
    assert (Hsome : (1 <= length (buf jc) + length (held ws))%nat).
    { unfold sent_jobs in Hbuf. simpl in Hbuf. lia. }
    destruct (held ws) as [|job hs] eqn:Hheld.
    + destruct (buf jc) as [|job rest] eqn:Hjobs; [simpl in Hsome; lia|].
      destruct (proj2 (Hspawn 1)) as [wpc Hw]; [unfold numWorkers; lia|].
      exists (GWorker 1). unfold step_worker, recv. simpl. rewrite Hw, Hjobs.
      destruct wpc as [|job'|].
      * eauto.
      * apply worker_held in Hw. rewrite Hheld in Hw.
        by apply elem_of_nil in Hw.
      * by destruct (Hret 1 Hw).
    + destruct (held_worker ws job) as [id Hid].
      { rewrite Hheld. apply elem_of_cons. by left. }
      exists (GWorker id). unfold step_worker, send. simpl.
      rewrite Hid, Hro, Hcr, Hrc. simpl. eauto.
  - exists GMain. unfold step_main. simpl. eauto.
  - by destruct pk.
Qed.

(** X21: while the program has not ended it is not stuck: under every
    schedule, unless [main] has returned, some goroutine can step. *)
Theorem never_deadlocks (sched : list goroutine) :
  main_at (snd (run sched)) = MReturned \/
  exists g e st', step g (snd (run sched)) = Some (e, st').
Proof.
  pose proof (run_Account sched) as HA.
  destruct (halted (snd (run sched))) eqn:Hh.
  - left. unfold halted in Hh.
    rewrite (inv_not_panicked _ _ (acc_base _ _ HA)) in Hh. simpl in Hh.
    by destruct (main_at (snd (run sched))).
  - right. by eapply Account_not_stuck.
Qed.

Lemma run_from_app s1 : forall st s2,
  run_from st (s1 ++ s2)
  = (fst (run_from st s1) ++ fst (run_from (snd (run_from st s1)) s2),
     snd (run_from (snd (run_from st s1)) s2)).
Proof.
  induction s1 as [|g s1 IH]; intros st s2; simpl.
  - by destruct (run_from st s2).
  - destruct (step g st) as [[e st']|]; [|apply IH].
    rewrite IH. by destruct (run_from st' s1).
Qed.

Lemma steps_left_0 st past :
  Account st past -> steps_left st = 0%nat -> main_at st = MReturned.
Proof.
  intros HA H0. pose proof (acc_range _ _ HA) as Hrange.
  pose proof (inv_send_range _ _ (acc_base _ _ HA)) as Hsr.
  unfold steps_left in H0.
  destruct (main_at st); simpl in *; try done; lia.
Qed.

(** From every state an execution has reached, some schedule takes the
    program on to the return of [main]. *)
Lemma Account_finishes (k : nat) : forall st past,
  Account st past -> (35 - length past <= k)%nat ->
  exists more, main_at (snd (run_from st more)) = MReturned.
Proof.
  induction k as [|k IH]; intros st past HA Hk.
  - exists []. simpl. apply (steps_left_0 _ _ HA).
    pose proof (acc_steps _ _ HA). lia.
  - destruct (halted st) eqn:Hh.
    + exists []. simpl. unfold halted in Hh.
      rewrite (inv_not_panicked _ _ (acc_base _ _ HA)) in Hh. simpl in Hh.
      by destruct (main_at st).
    + destruct (Account_not_stuck _ _ HA Hh) as (g & e & st' & Hstep).
      pose proof (step_Account _ _ _ _ _ HA Hstep) as HA'.
      destruct (IH st' (past ++ [e]) HA') as (more & Hmore).
      { rewrite length_app. simpl. lia. }
      exists (g :: more). simpl. rewrite Hstep.
      by destruct (run_from st' more).
Qed.

(** X22: every execution is at most 35 steps long, and every execution can be
    carried on to the return of [main]; by then the five results 2, 4, 6,
    8 and 10 have been received and printed, in some order. *)
Theorem always_terminates (sched : list goroutine) :
  (length (fst (run sched)) <= 35)%nat /\
  exists more,
    main_at (snd (run (sched ++ more))) = MReturned /\
    received (fst (run (sched ++ more))) ≡ₚ [2; 4; 6; 8; 10] /\
    printed (fst (run (sched ++ more)))
      = result_line <$> received (fst (run (sched ++ more))).
Proof.
  pose proof (run_Account sched) as HA. split.
  - pose proof (acc_steps _ _ HA). lia.
  - destruct (Account_finishes 35 _ _ HA) as (more & Hmore); [lia|].
    exists more.
    assert (Hpc : main_at (snd (run (sched ++ more))) = MReturned).
    { unfold run. rewrite run_from_app. simpl. exact Hmore. }
    split; [exact Hpc|].
    apply (returned_all _ _ (run_Account (sched ++ more)) Hpc).
Qed.

End WorkerPoolAccountSpec.

(** ** The chat program *)

Module ChatSpec.
Import GoInt GoIntFacts Chat.
Local Open Scope Z_scope.

Lemma chat_Inv_init : Inv init [].
Proof. by constructor. Qed.

Lemma chat_printed_snoc past e :
  printed (past ++ [e])
  = printed past ++ from_option (fun l => [l]) [] (line_printed e).
Proof.
  unfold printed. rewrite omap_app. simpl. by destruct (line_printed e).
Qed.

Lemma chat_order_snoc_quiet past e :
  no_send_after_close past = true -> is_send e = false ->
  no_send_after_close (past ++ [e]) = true.
Proof.
  intros Hp He. induction past as [|e0 past IH]; simpl in *.
  - by destruct (is_close e).
  - destruct (is_close e0); [|by apply IH].
    rewrite forallb_app, Hp. simpl. by rewrite He.
Qed.

Lemma chat_order_snoc_open past e :
  existsb is_close past = false -> no_send_after_close (past ++ [e]) = true.
Proof.
  induction past as [|e0 past IH]; simpl.
  - intros _. by destruct (is_close e).
  - destruct (is_close e0); [discriminate|]. exact IH.
Qed.

Lemma chat_existsb_snoc (f : event -> bool) past e :
  existsb f (past ++ [e]) = existsb f past || f e.
Proof. rewrite existsb_app. simpl. by rewrite orb_false_r. Qed.

Lemma take_expected (i : Z) :
  1 <= i <= 10 ->
  take (Z.to_nat i) expected_lines
  = take (Z.to_nat (i - 1)) expected_lines ++ [received_line (message i)].
Proof.
  intros Hi.
  assert (Hcases : i = 1 \/ i = 2 \/ i = 3 \/ i = 4 \/ i = 5 \/ i = 6 \/
                   i = 7 \/ i = 8 \/ i = 9 \/ i = 10) by lia.
  by destruct Hcases as [->|[->|[->|[->|[->|[->|[->|[->|[->| ->]]]]]]]]].
Qed.

Lemma chat_add_1 (x : Z) : 0 <= x <= 10 -> add x 1 = x + 1.
Proof.
  intros Hx. apply wrap_in_range. unfold in_range, MinInt, MaxInt, intSize. lia.
Qed.

(** The parts of the invariant that a step leaves as they are. *)
Ltac still :=
  rewrite ?chat_printed_snoc, ?chat_existsb_snoc; simpl;
  rewrite ?app_nil_r, ?orb_false_r, ?length_app; simpl;
  first [assumption | done | lia
        | by apply chat_order_snoc_quiet
        | by apply chat_order_snoc_open].

Lemma chat_step_Inv g st past e st' :
  Inv st past -> step g st = Some (e, st') -> Inv st' (past ++ [e]).
Proof.
  intros [Hnp Hne Hcap Hstart Hrange Hclosed Hce Hord Hfifo Hret Hsteps] Hstep.
  unfold step in Hstep. rewrite Hnp in Hstep.
  destruct st as [ch mpc pp cp pk]. unfold steps_left, started in *. simpl in *.
  destruct g.
  - (* main *)
    unfold step_main in Hstep. simpl in Hstep.
    destruct mpc; [| |discriminate]; injection Hstep as <- <-;
      destruct Hstart as [-> Hc]; try subst cp; simpl in *;
      (constructor; unfold steps_left, started; simpl; try solve [still]).
    intros Hc'. by destruct (Hret Hc') as [_ ?].
  - (* the producer *)
    unfold step_producer in Hstep. simpl in Hstep.
    destruct pp as [[i|i| |]|]; try discriminate; simpl in *.
    + destruct (Z.leb_spec i 10) as [Hi|Hi].
      * unfold send in Hstep. rewrite Hclosed in Hstep.
        destruct (length (buf ch) <? capacity ch)%nat; [|discriminate].
        injection Hstep as <- <-.
        constructor; unfold steps_left, started; simpl; try solve [still];
          try solve [destruct mpc; simpl in *; intuition congruence];
          try solve [intros Hc; by destruct (Hret Hc) as [_ ?]];
          try solve [rewrite !length_app; simpl in *; lia].
        rewrite chat_printed_snoc. simpl. rewrite app_nil_r, fmap_app.
        rewrite take_expected by lia. rewrite <- Hfifo.
        by rewrite <- !app_assoc.
      * injection Hstep as <- <-. assert (i = 11) as -> by lia.
        constructor; unfold steps_left, started; simpl; try solve [still];
          try solve [destruct mpc; simpl in *; intuition congruence];
          try solve [intros Hc; by destruct (Hret Hc) as [_ ?]];
          try solve [rewrite !length_app; simpl in *; lia].
    + injection Hstep as <- <-. rewrite chat_add_1 by lia.
      constructor; unfold steps_left, started; simpl; try solve [still];
        try solve [destruct mpc; simpl in *; intuition congruence];
        try solve [intros Hc; by destruct (Hret Hc) as [_ ?]];
        try solve [rewrite !length_app; simpl in *; lia].
      rewrite chat_printed_snoc. simpl. rewrite app_nil_r.
      replace (Z.to_nat (i + 1 - 1)) with (Z.to_nat i) by lia. exact Hfifo.
    + unfold close in Hstep. rewrite Hclosed in Hstep.
      injection Hstep as <- <-.
      constructor; unfold steps_left, started; simpl; try solve [still];
        try solve [destruct mpc; simpl in *; intuition congruence];
        try solve [intros Hc; by destruct (Hret Hc) as [_ ?]];
        try solve [rewrite !length_app; simpl in *; lia].
  - (* the consumer *)
    unfold step_consumer in Hstep. simpl in Hstep.
    destruct cp as [[|msg|]|]; try discriminate; simpl in *.
    + unfold recv in Hstep. destruct (buf ch) as [|m rest] eqn:Hbuf.
      * destruct (closed ch) eqn:Hc; [|discriminate].
        injection Hstep as <- <-.
        constructor; unfold steps_left, started; simpl; rewrite ?Hbuf;
          try solve [still];
          try solve [destruct mpc; simpl in *; intuition congruence];
          try solve [rewrite !length_app; simpl in *; lia].
        { rewrite chat_printed_snoc. simpl. rewrite app_nil_r. exact Hfifo. }
        intros _. split; [done|]. by destruct pp as [[| | |]|].
      * injection Hstep as <- <-.
        constructor; unfold steps_left, started; simpl; try solve [still];
          try solve [destruct mpc; simpl in *; intuition congruence];
          try solve [rewrite !length_app; simpl in *; lia].
    + injection Hstep as <- <-.
      constructor; unfold steps_left, started; simpl; try solve [still];
        try solve [destruct mpc; simpl in *; intuition congruence];
        try solve [rewrite !length_app; simpl in *; lia].
      rewrite chat_printed_snoc. simpl. by rewrite <- app_assoc.
Qed.

Lemma chat_run_from_Inv sched : forall st past,
  Inv st past ->
  Inv (snd (run_from st sched)) (past ++ fst (run_from st sched)).
Proof.
  induction sched as [|g sched IH]; intros st past HI; simpl.
  - by rewrite app_nil_r.
  - destruct (step g st) as [[e st']|] eqn:Hstep; [|by apply IH].
    specialize (IH st' (past ++ [e]) (chat_step_Inv _ _ _ _ _ HI Hstep)).
    destruct (run_from st' sched) as [tr fin]. simpl in *.
    by rewrite <- app_assoc in IH.
Qed.

Lemma chat_run_Inv sched : Inv (snd (run sched)) (fst (run sched)).
Proof. apply (chat_run_from_Inv sched init [] chat_Inv_init). Qed.


Lemma chat_buffer_bound st past :
  Inv st past -> (length (buf (messages st)) <= 10)%nat.
Proof.
  intros HI. pose proof (inv_fifo _ _ HI) as Hfifo.
  apply (f_equal length) in Hfifo.
  rewrite !length_app, !length_fmap, length_take in Hfifo.
  change (length expected_lines) with 10%nat in Hfifo. lia.
Qed.

(** X23: whatever the schedule, the lines printed are the first of the ten
    expected lines, in the order the messages were sent; no message is
    sent after [close(messages)], and nothing panics. *)
Theorem chat_prints_in_order (sched : list goroutine) :
  printed (fst (run sched)) `prefix_of` expected_lines /\
  no_send_after_close (fst (run sched)) = true /\
  existsb is_panic (fst (run sched)) = false /\
  panicked (snd (run sched)) = false.
Proof.
  pose proof (chat_run_Inv sched) as HI.
  split; [|split; [|split]]; try apply HI.
  etransitivity; [|apply prefix_take].
  rewrite <- (inv_fifo _ _ HI). by eexists.
Qed.

(** X24: the channel never holds more than the ten messages, so with its
    buffer of a hundred the sender never has to wait. *)
Theorem chat_sender_never_waits (sched : list goroutine) (m : Message) :
  (length (buf (messages (snd (run sched)))) <= 10)%nat /\
  send (messages (snd (run sched))) m <> SendBlocks.
Proof.
  pose proof (chat_run_Inv sched) as HI.
  pose proof (chat_buffer_bound _ _ HI) as Hlen.
  split; [exact Hlen|]. unfold send. rewrite (inv_capacity _ _ HI).
  destruct (closed _); [done|].
  destruct (Nat.ltb_spec (length (buf (messages (snd (run sched))))) 100);
    [done|lia].
Qed.






(** The first two of the ten lines, as the program prints them. *)
Example chat_first_lines :
  take 2 expected_lines
  = [("Received message from User1: Hello from User1!" ++ String "010"%char "")%string;
     ("Received message from User2: Hello from User2!" ++ String "010"%char "")%string].
Proof. vm_compute. reflexivity. Qed.

End ChatSpec.


(** ** The wait-group snippet *)

Module WaitGroupSpec.
Import WaitGroup.
Local Open Scope Z_scope.

Lemma wg_Inv_init : Inv init [].
Proof. by constructor. Qed.

Lemma wg_read_snoc past e : read (past ++ [e]) = scan (read past) e.
Proof. unfold read. by rewrite fold_left_app. Qed.

Lemma wg_existsb_snoc past e :
  existsb is_panic (past ++ [e]) = existsb is_panic past || is_panic e.
Proof. rewrite existsb_app. simpl. by rewrite orb_false_r. Qed.

(** The fields of the invariant after a step, as far as they follow by
    computing. *)
Ltac wg_fields Hread Hne :=
  constructor; unfold steps_left; simpl in *;
  rewrite ?wg_read_snoc, ?wg_existsb_snoc, ?Hread, ?Hne, ?length_app;
  simpl; rewrite ?orb_false_r; try done; try lia.

Lemma wg_step_Inv g st past e st' :
  Inv st past -> step g st = Some (e, st') -> Inv st' (past ++ [e]).
Proof.
  intros [Hnp Hne Hctr Hstart Hread Hsteps] Hstep.
  unfold step in Hstep. rewrite Hnp in Hstep.
  destruct st as [c mpc t1 t2 pk]. unfold steps_left in *. simpl in *.
  destruct g as [|k].
  - unfold step_main, Add in Hstep. simpl in Hstep.
    destruct mpc; simpl in *.
    + destruct Hstart as [-> ->]. subst c. simpl in Hstep.
      injection Hstep as <- <-. wg_fields Hread Hne.
    + destruct Hstart as [-> ->]. injection Hstep as <- <-.
      wg_fields Hread Hne.
    + destruct Hstart as [H1 ->]. injection Hstep as <- <-.
      wg_fields Hread Hne.
    + destruct Hstart as [H1 H2].
      destruct (Z.eqb_spec c 0) as [Hc|Hc]; [|discriminate].
      injection Hstep as <- <-.
      assert (Hdone : t1 = Some TReturned /\ t2 = Some TReturned).
      { destruct t1 as [[| |]|], t2 as [[| |]|]; simpl in *; try done; lia. }
      destruct Hdone as [-> ->]. wg_fields Hread Hne.
    + discriminate.
  - unfold step_task, task_of, set_task, Add in Hstep. simpl in Hstep.
    destruct (Z.eqb_spec k 1) as [->|Hk1].
    + destruct t1 as [[| |]|]; simpl in *; try discriminate.
      * injection Hstep as <- <-. wg_fields Hread Hne.
        all: destruct mpc; simpl in *; intuition congruence.
      * assert (Hpos : (c + -1 <? 0) = false).
        { apply Z.ltb_ge. destruct mpc, t2 as [[| |]|]; simpl in *;
            intuition (try congruence; try lia). }
        rewrite Hpos in Hstep. injection Hstep as <- <-.
        wg_fields Hread Hne.
        all: destruct mpc; simpl in *; intuition (try congruence; try lia).
    + destruct (Z.eqb_spec k 2) as [->|Hk2]; [|discriminate].
      destruct t2 as [[| |]|]; simpl in *; try discriminate.
      * injection Hstep as <- <-. wg_fields Hread Hne.
        all: destruct mpc; simpl in *; intuition congruence.
      * assert (Hpos : (c + -1 <? 0) = false).
        { apply Z.ltb_ge. destruct mpc, t1 as [[| |]|]; simpl in *;
            intuition (try congruence; try lia). }
        rewrite Hpos in Hstep. injection Hstep as <- <-.
        wg_fields Hread Hne.
        all: destruct mpc; simpl in *; intuition (try congruence; try lia).
Qed.

Lemma wg_run_from_Inv sched : forall st past,
  Inv st past ->
  Inv (snd (run_from st sched)) (past ++ fst (run_from st sched)).
Proof.
  induction sched as [|g sched IH]; intros st past HI; simpl.
  - by rewrite app_nil_r.
  - destruct (step g st) as [[e st']|] eqn:Hstep; [|by apply IH].
    specialize (IH st' (past ++ [e]) (wg_step_Inv _ _ _ _ _ HI Hstep)).
    destruct (run_from st' sched) as [tr fin]. simpl in *.
    by rewrite <- app_assoc in IH.
Qed.

Lemma wg_run_Inv sched : Inv (snd (run sched)) (fst (run sched)).
Proof. apply (wg_run_from_Inv sched init [] wg_Inv_init). Qed.

Lemma wg_run_from_app s1 : forall st s2,
  run_from st (s1 ++ s2)
  = (fst (run_from st s1) ++ fst (run_from (snd (run_from st s1)) s2),
     snd (run_from (snd (run_from st s1)) s2)).
Proof.
  induction s1 as [|g s1 IH]; intros st s2; simpl.
  - by destruct (run_from st s2).
  - destruct (step g st) as [[e st']|]; [|apply IH].
    rewrite IH. by destruct (run_from st' s1).
Qed.


Lemma wg_not_stuck st past :
  Inv st past ->
  main_at st = MPast \/ exists g e st', step g st = Some (e, st').
Proof.
  intros [Hnp Hne Hctr Hstart Hread Hsteps].
  unfold step. rewrite Hnp.
  destruct st as [c mpc t1 t2 pk]. simpl in *.
  destruct mpc; [| | | |by left]; right.
  - exists GMain. unfold step_main. simpl. destruct (Add c 2); eauto.
  - exists GMain. unfold step_main. simpl. eauto.
  - exists GMain. unfold step_main. simpl. eauto.
  - destruct Hstart as [H1 H2].
    destruct t1 as [[| |]|]; [| | |done].
    + exists (GTask 1). unfold step_task, task_of. simpl. eauto.
    + exists (GTask 1). unfold step_task, task_of. simpl.
      destruct (Add c (-1)); eauto.
    + destruct t2 as [[| |]|]; [| | |done].
      * exists (GTask 2). unfold step_task, task_of. simpl. eauto.
      * exists (GTask 2). unfold step_task, task_of. simpl.
        destruct (Add c (-1)); eauto.
      * exists GMain. unfold step_main. simpl in *. subst c. simpl. eauto.
Qed.

Lemma wg_finishes (k : nat) : forall st past,
  Inv st past -> (8 - length past <= k)%nat ->
  exists more, main_at (snd (run_from st more)) = MPast.
Proof.
  induction k as [|k IH]; intros st past HI Hk.
  - exists []. simpl. pose proof (inv_steps _ _ HI) as Hs.
    unfold steps_left in Hs. destruct (main_at st); simpl in *; try done; lia.
  - destruct (wg_not_stuck _ _ HI) as [Hpast|(g & e & st' & Hstep)].
    + by exists [].
    + pose proof (wg_step_Inv _ _ _ _ _ HI Hstep) as HI'.
      destruct (IH st' (past ++ [e]) HI') as (more & Hmore).
      { rewrite length_app. simpl. lia. }
      exists (g :: more). simpl. rewrite Hstep.
      by destruct (run_from st' more).
Qed.

(** X27: the snippet cannot hang: every execution has at most 8 steps and can
    be carried on until [wg.Wait()] has returned. *)
Theorem wait_always_returns (sched : list goroutine) :
  (length (fst (run sched)) <= 8)%nat /\
  exists more, main_at (snd (run (sched ++ more))) = MPast.
Proof.
  pose proof (wg_run_Inv sched) as HI. split.
  - pose proof (inv_steps _ _ HI). lia.
  - destruct (wg_finishes 8 _ _ HI) as (more & Hmore); [lia|].
    exists more. unfold run. rewrite wg_run_from_app. simpl. exact Hmore.
Qed.

End WaitGroupSpec.

(** ** The request pool *)

Module PoolSpec.
Import GoInt GoIntFacts Pool.
Local Open Scope Z_scope.

Lemma pool_Inv_init : Inv init [].
Proof.
  constructor; try done.
  intros k. simpl. rewrite lookup_empty. split; [by intros [? ?]|lia].
Qed.

Lemma pool_printed_snoc past e :
  printed (past ++ [e])
  = printed past ++ from_option (fun l => [l]) [] (line_printed e).
Proof.
  unfold printed. rewrite omap_app. simpl. by destruct (line_printed e).
Qed.

Lemma pool_answers_snoc past e :
  answers (past ++ [e])
  = answers past ++ from_option (fun a => [a]) [] (answer e).
Proof.
  unfold answers. rewrite omap_app. simpl. by destruct (answer e).
Qed.

Lemma pool_existsb_snoc (f : event -> bool) past e :
  existsb f (past ++ [e]) = existsb f past || f e.
Proof. rewrite existsb_app. simpl. by rewrite orb_false_r. Qed.

Lemma pool_order_snoc_quiet past e :
  no_send_after_close past = true -> is_request e = false ->
  no_send_after_close (past ++ [e]) = true.
Proof.
  intros Hp He. induction past as [|e0 past IH]; simpl in *.
  - by destruct (is_close e).
  - destruct (is_close e0); [|by apply IH].
    rewrite forallb_app, Hp. simpl. by rewrite He.
Qed.

Lemma pool_order_snoc_open past e :
  existsb is_close past = false -> no_send_after_close (past ++ [e]) = true.
Proof.
  induction past as [|e0 past IH]; simpl.
  - intros _. by destruct (is_close e).
  - destruct (is_close e0); [discriminate|]. exact IH.
Qed.

Lemma take_expected_requests (i : Z) :
  1 <= i <= 10 ->
  take (Z.to_nat i) expected_requests
  = take (Z.to_nat (i - 1)) expected_requests ++ [request i].
Proof.
  intros Hi.
  assert (Hcases : i = 1 \/ i = 2 \/ i = 3 \/ i = 4 \/ i = 5 \/ i = 6 \/
                   i = 7 \/ i = 8 \/ i = 9 \/ i = 10) by lia.
  by destruct Hcases as [->|[->|[->|[->|[->|[->|[->|[->|[->| ->]]]]]]]]].
Qed.

Lemma pool_add_1 (x : Z) : 0 <= x <= 10 -> add x 1 = x + 1.
Proof.
  intros Hx. apply wrap_in_range. unfold in_range, MinInt, MaxInt, intSize. lia.
Qed.

Lemma pool_workers_update (ws : gmap Z worker_pc) id old new :
  ws !! id = Some old ->
  map_to_list ws ≡ₚ (id, old) :: map_to_list (delete id ws) /\
  map_to_list (<[id := new]> ws) ≡ₚ (id, new) :: map_to_list (delete id ws).
Proof.
  intros Hid. split.
  - symmetry. by apply map_to_list_delete.
  - rewrite <- insert_delete_eq. apply map_to_list_insert, lookup_delete_eq.
Qed.

(** The parts of the invariant that a step leaves as they are. *)
Ltac pool_still :=
  rewrite ?pool_printed_snoc, ?pool_answers_snoc, ?pool_existsb_snoc; simpl;
  rewrite ?app_nil_r, ?orb_false_r, ?length_app; simpl;
  first [assumption | done | lia
        | by apply pool_order_snoc_quiet
        | by apply pool_order_snoc_open].

(** A step of the sender keeps the invariant. *)
Lemma pool_step_producer st past e st' :
  Inv st past -> step_producer st = Some (e, st') -> Inv st' (past ++ [e]).
Proof.
  intros [Hnp Hne [Hcq Hcr] Hro Hstart Hrange Hmr Hclosed Hce Hord Hspawn
          Hbal Hby Hfifo Hret Hcoll Hsteps] Hstep.
  destruct st as [rq rs mpc ws pp kp pk].
  unfold step_producer in Hstep. unfold steps_left, started in *. simpl in *.
  destruct pp as [[i|i| |]|]; try discriminate; simpl in *.
  - destruct (Z.leb_spec i 10) as [Hi|Hi].
    + unfold send in Hstep. rewrite Hclosed in Hstep.
      destruct (length (buf rq) <? capacity rq)%nat; [|discriminate].
      injection Hstep as <- <-.
      constructor; unfold steps_left, started; simpl; try solve [pool_still];
        try solve [destruct mpc; simpl in *; intuition congruence];
        try solve [intros id Hid; by destruct (Hret id Hid) as [_ ?]];
        try solve [rewrite !length_app; simpl in *; lia].
      rewrite pool_answers_snoc. simpl. rewrite app_nil_r.
      rewrite take_expected_requests by lia. rewrite <- Hbal.
      solve_Permutation.
    + injection Hstep as <- <-. assert (i = 11) as -> by lia.
      constructor; unfold steps_left, started; simpl; try solve [pool_still];
        try solve [destruct mpc; simpl in *; intuition congruence];
        try solve [intros id Hid; by destruct (Hret id Hid) as [_ ?]];
        try solve [rewrite !length_app; simpl in *; lia].
  - injection Hstep as <- <-. rewrite pool_add_1 by lia.
    constructor; unfold steps_left, started; simpl; try solve [pool_still];
      try solve [destruct mpc; simpl in *; intuition congruence];
      try solve [intros id Hid; by destruct (Hret id Hid) as [_ ?]];
      try solve [rewrite !length_app; simpl in *; lia].
    rewrite pool_answers_snoc. simpl. rewrite app_nil_r.
    replace (Z.to_nat (i + 1 - 1)) with (Z.to_nat i) by lia. exact Hbal.
  - unfold close in Hstep. rewrite Hclosed in Hstep.
    injection Hstep as <- <-.
    constructor; unfold steps_left, started; simpl; try solve [pool_still];
      try solve [destruct mpc; simpl in *; intuition congruence];
      try solve [intros id Hid; by destruct (Hret id Hid) as [_ ?]];
      try solve [rewrite !length_app; simpl in *; lia].
Qed.

(** A step of the collector keeps the invariant. *)
Lemma pool_step_collector st past e st' :
  Inv st past -> step_collector st = Some (e, st') -> Inv st' (past ++ [e]).
Proof.
  intros [Hnp Hne [Hcq Hcr] Hro Hstart Hrange Hmr Hclosed Hce Hord Hspawn
          Hbal Hby Hfifo Hret Hcoll Hsteps] Hstep.
  destruct st as [rq rs mpc ws pp kp pk].
  unfold step_collector in Hstep. unfold steps_left, started in *. simpl in *.
  destruct kp as [[|text|]|]; try discriminate; simpl in *.
  - unfold recv in Hstep. destruct (buf rs) as [|text rest] eqn:Hbuf.
    { rewrite Hro in Hstep. discriminate. }
    injection Hstep as <- <-.
    constructor; unfold steps_left, started; simpl; try solve [pool_still];
      try solve [destruct mpc; simpl in *; intuition congruence];
      try solve [rewrite !length_app; simpl in *; lia].
  - injection Hstep as <- <-.
    constructor; unfold steps_left, started; simpl; try solve [pool_still];
      try solve [destruct mpc; simpl in *; intuition congruence];
      try solve [rewrite !length_app; simpl in *; lia].
    rewrite pool_answers_snoc, pool_printed_snoc. simpl.
    rewrite app_nil_r, Hfifo. by rewrite <- app_assoc.
Qed.

(** A step of [main] keeps the invariant. *)
Lemma pool_step_main st past e st' :
  Inv st past -> step_main st = Some (e, st') -> Inv st' (past ++ [e]).
Proof.
  intros [Hnp Hne [Hcq Hcr] Hro Hstart Hrange Hmr Hclosed Hce Hord Hspawn
          Hbal Hby Hfifo Hret Hcoll Hsteps] Hstep.
  destruct st as [rq rs mpc ws pp kp pk].
  unfold step_main in Hstep. unfold steps_left, started in *. simpl in *.
  destruct mpc as [i| | |]; simpl in *; [| | |discriminate].
  - destruct Hstart as [-> ->].
    destruct (Z.leb_spec i numWorkers) as [Hi|Hi]; injection Hstep as <- <-.
    + unfold numWorkers in *. rewrite pool_add_1 by lia.
      assert (Hnew : ws !! i = None).
      { apply eq_None_not_Some. rewrite Hspawn. lia. }
      pose proof (map_to_list_insert ws i WRange Hnew) as Hperm.
      assert (Hheld : held (<[i := WRange]> ws) ≡ₚ held ws).
      { unfold held. by rewrite Hperm. }
      assert (Hlive : live (<[i := WRange]> ws) ≡ₚ i :: live ws).
      { unfold live. by rewrite Hperm. }
      constructor; unfold steps_left, started; simpl; try solve [pool_still].
      * intros k. rewrite lookup_insert. case_decide; subst.
        { split; [lia|by eexists]. }
        rewrite Hspawn. lia.
      * rewrite Hheld. pool_still.
      * intros id Hid. rewrite lookup_insert in Hid. case_decide; [done|].
        by destruct (Hret id Hid) as [_ ?].
      * rewrite Hheld, Hlive, length_app. simpl in *. unfold numWorkers. lia.
    + unfold numWorkers in *. assert (i = 4) as -> by lia.
      constructor; unfold steps_left, started; simpl; try solve [pool_still];
        try solve [intros id Hid; by destruct (Hret id Hid) as [_ ?]];
        try solve [rewrite !length_app; simpl in *; unfold numWorkers; lia].
  - destruct Hstart as [-> ->]. injection Hstep as <- <-.
    constructor; unfold steps_left, started; simpl; try solve [pool_still];
      try solve [intros id Hid; by destruct (Hret id Hid) as [_ ?]];
      try solve [rewrite !length_app; simpl in *; unfold numWorkers; lia].
  - destruct Hstart as [Hp ->]. injection Hstep as <- <-.
    constructor; unfold steps_left, started; simpl; try solve [pool_still];
      try solve [rewrite !length_app; simpl in *; unfold numWorkers; lia].
Qed.

(** A step of a worker keeps the invariant. *)
Lemma pool_step_worker id st past e st' :
  Inv st past -> step_worker id st = Some (e, st') -> Inv st' (past ++ [e]).
Proof.
  intros [Hnp Hne [Hcq Hcr] Hro Hstart Hrange Hmr Hclosed Hce Hord Hspawn
          Hbal Hby Hfifo Hret Hcoll Hsteps] Hstep.
  destruct st as [rq rs mpc ws pp kp pk].
  unfold step_worker in Hstep. unfold steps_left, started in *. simpl in *.
  destruct (ws !! id) as [wpc|] eqn:Hid; [|discriminate].
  assert (Hidr : 1 <= id <= numWorkers).
  { assert (Hs : is_Some (ws !! id)) by (by eexists).
    apply Hspawn in Hs. unfold numWorkers.
    destruct mpc; simpl in *; unfold numWorkers in *; lia. }
  assert (Hdom : forall new k,
    is_Some (<[id := new]> ws !! k) <-> 1 <= k < spawned_below mpc).
  { intros new k. rewrite <- Hspawn, lookup_insert. case_decide; subst.
    - split; [intros _; by eexists | intros _; by eexists].
    - reflexivity. }
  destruct wpc as [|req|]; [| |discriminate].
  - destruct (pool_workers_update ws id WRange WReturned Hid) as [Hold _].
    unfold recv in Hstep. destruct (buf rq) as [|req rest] eqn:Hbuf.
    + destruct (closed rq) eqn:Hc; [|discriminate]. injection Hstep as <- <-.
      destruct (pool_workers_update ws id WRange WReturned Hid) as [_ Hnew].
      assert (Hheld : held (<[id := WReturned]> ws) ≡ₚ held ws).
      { unfold held. by rewrite Hnew, Hold. }
      assert (Hlive : live ws ≡ₚ id :: live (<[id := WReturned]> ws)).
      { unfold live. by rewrite Hnew, Hold. }
      constructor; unfold steps_left, started; simpl; rewrite ?Hbuf;
        try solve [pool_still];
        try solve [destruct mpc; simpl in *; intuition congruence].
      * rewrite Hheld. pool_still.
      * intros id' _. split; [done|]. by destruct pp as [[| | |]|].
      * rewrite Hheld, length_app. rewrite Hlive in Hsteps. simpl in *. lia.
    + injection Hstep as <- <-.
      destruct (pool_workers_update ws id WRange (WSend req) Hid) as [_ Hnew].
      assert (Hheld : held (<[id := WSend req]> ws) ≡ₚ req :: held ws).
      { unfold held. by rewrite Hnew, Hold. }
      assert (Hlive : live (<[id := WSend req]> ws) ≡ₚ live ws).
      { unfold live. by rewrite Hnew, Hold. }
      constructor; unfold steps_left, started; simpl;
        try solve [pool_still];
        try solve [destruct mpc; simpl in *; intuition congruence].
      * rewrite Hheld, pool_answers_snoc. simpl. rewrite app_nil_r, <- Hbal.
        solve_Permutation.
      * intros id' Hid'. rewrite lookup_insert in Hid'.
        case_decide; [done|]. by destruct (Hret id' Hid').
      * rewrite Hheld, Hlive, length_app. simpl in *. lia.
  - destruct (pool_workers_update ws id (WSend req) WRange Hid) as [Hold Hnew].
    assert (Hheld : held ws ≡ₚ req :: held (<[id := WRange]> ws)).
    { unfold held. by rewrite Hnew, Hold. }
    assert (Hlive : live (<[id := WRange]> ws) ≡ₚ live ws).
    { unfold live. by rewrite Hnew, Hold. }
    unfold send in Hstep. rewrite Hro in Hstep.
    destruct (length (buf rs) <? capacity rs)%nat; [|discriminate].
    injection Hstep as <- <-.
    constructor; unfold steps_left, started; simpl;
      try solve [pool_still];
      try solve [destruct mpc; simpl in *; intuition congruence].
    + rewrite pool_answers_snoc. simpl. rewrite fmap_app. simpl.
      rewrite <- Hbal, Hheld. solve_Permutation.
    + rewrite pool_answers_snoc. simpl. apply Forall_app. split; [done|].
      constructor; [exact Hidr | constructor].
    + rewrite pool_answers_snoc, pool_printed_snoc. simpl.
      rewrite fmap_app, Hfifo. simpl. by rewrite app_nil_r, <- !app_assoc.
    + intros id' Hid'. rewrite lookup_insert in Hid'.
      case_decide; [done|]. by destruct (Hret id' Hid').
    + rewrite Hlive, !length_app. rewrite Hheld in Hsteps. simpl in *. lia.
Qed.

Lemma pool_step_Inv g st past e st' :
  Inv st past -> step g st = Some (e, st') -> Inv st' (past ++ [e]).
Proof.
  intros HI. unfold step. rewrite (inv_not_panicked _ _ HI).
  destruct g.
  - by apply pool_step_main.
  - by apply pool_step_worker.
  - by apply pool_step_producer.
  - by apply pool_step_collector.
Qed.

Lemma pool_run_from_Inv sched : forall st past,
  Inv st past ->
  Inv (snd (run_from st sched)) (past ++ fst (run_from st sched)).
Proof.
  induction sched as [|g sched IH]; intros st past HI; simpl.
  - by rewrite app_nil_r.
  - destruct (step g st) as [[e st']|] eqn:Hstep; [|by apply IH].
    specialize (IH st' (past ++ [e]) (pool_step_Inv _ _ _ _ _ HI Hstep)).
    destruct (run_from st' sched) as [tr fin]. simpl in *.
    by rewrite <- app_assoc in IH.
Qed.

Lemma pool_run_Inv sched : Inv (snd (run sched)) (fst (run sched)).
Proof. apply (pool_run_from_Inv sched init [] pool_Inv_init). Qed.


(** X28: whatever the schedule, every line printed is the response of one of
    the workers 1 to 3 to one of the ten requests, the lines come out in
    the order the responses were sent, and no request is answered twice;
    no request is sent after [close(requests)] and nothing panics. *)
Theorem pool_answers_each_request_once (sched : list goroutine) :
  printed (fst (run sched))
    `prefix_of` (answer_text <$> answers (fst (run sched))) /\
  (snd <$> answers (fst (run sched))) ⊆+ expected_requests /\
  Forall (fun a => 1 <= fst a <= 3) (answers (fst (run sched))) /\
  no_send_after_close (fst (run sched)) = true /\
  existsb is_panic (fst (run sched)) = false /\
  panicked (snd (run sched)) = false.
Proof.
  pose proof (pool_run_Inv sched) as HI.
  split; [|split; [|split; [|split; [|split]]]]; try apply HI.
  - rewrite (inv_fifo _ _ HI). by eexists.
  - etransitivity; [|apply sublist_submseteq,
                      (sublist_take _ (sent_count (producer (snd (run sched)))))].
    rewrite <- (inv_balance _ _ HI).
    do 2 apply submseteq_inserts_l. reflexivity.
Qed.

Lemma pool_lengths st past :
  Inv st past ->
  (length (buf (requests st)) + length (held (workers st))
   + length (answers past) <= 10)%nat /\
  (length (buf (requests st)) + length (held (workers st))
   + length (answers past) = sent_count (producer st) `min` 10)%nat /\
  (length (buf (results st)) <= length (answers past))%nat.
Proof.
  intros HI. pose proof (inv_balance _ _ HI) as Hbal.
  pose proof (inv_fifo _ _ HI) as Hfifo.
  apply Permutation_length in Hbal. apply (f_equal length) in Hfifo.
  rewrite !length_app, !length_fmap, ?length_take in Hbal.
  rewrite !length_app, !length_fmap in Hfifo.
  change (length expected_requests) with 10%nat in Hbal. lia.
Qed.

Lemma pool_worker_held (ws : gmap Z worker_pc) id req :
  ws !! id = Some (WSend req) -> req ∈ held ws.
Proof.
  intros Hid. unfold held. rewrite list_elem_of_omap.
  exists (id, WSend req). split; [by apply elem_of_map_to_list|done].
Qed.


(** X29: no goroutine ever has to wait to send: when the sender is about to
    send a request, [requests] has room, and when a worker is about to
    send a response, [results] has room. *)
Theorem pool_sends_never_wait (sched : list goroutine) :
  (forall i, producer (snd (run sched)) = Some (PSend i) -> i <= 10 ->
     send (requests (snd (run sched))) (request i) <> SendBlocks) /\
  (forall id req, workers (snd (run sched)) !! id = Some (WSend req) ->
     send (results (snd (run sched))) (response id req) <> SendBlocks).
Proof.
  pose proof (pool_run_Inv sched) as HI.
  destruct (pool_lengths _ _ HI) as (Hle & Hlen & Hres).
  destruct (inv_capacity _ _ HI) as [Hcq Hcr].
  pose proof (inv_range _ _ HI) as Hrange.
  split.
  - intros i Hp Hi. rewrite Hp in Hlen, Hrange. simpl in Hlen.
    unfold send. rewrite Hcq. destruct (closed _); [done|].
    destruct (Nat.ltb_spec (length (buf (requests (snd (run sched))))) 10);
      [done|lia].
  - intros id req Hid. apply pool_worker_held in Hid.
    assert (Hheld : (1 <= length (held (workers (snd (run sched)))))%nat).
    { destruct (held _); [by apply elem_of_nil in Hid|simpl; lia]. }
    unfold send. rewrite Hcr. destruct (closed _); [done|].
    destruct (Nat.ltb_spec (length (buf (results (snd (run sched))))) 10);
      [done|lia].
Qed.





(** The first response, as the program can print it. *)
Example pool_first_response :
  response 2 (request 1)
  = "Worker 2 processed request 1 to URL: http://example.com/1"%string.
Proof. vm_compute. reflexivity. Qed.

End PoolSpec.

(** ** The properties above at concrete inputs *)

Module Witnesses.
Import Exec GoInt Slices SliceOps Heap Fmt Functions Samples.
Local Open Scope Z_scope.

Lemma slice_expr_elems_witness :
  exists s',
    slice_expr letters (Some 2) (Some 5) = Ok s' /\
    elems s' = take (Z.to_nat (5 - 2)) (drop (Z.to_nat 2) (elems letters)) /\
    Z.of_nat (length (elems s')) = 5 - 2 /\
    (forall k : nat, (k < Z.to_nat (5 - 2))%nat ->
       elems s' !! k = elems letters !! (Z.to_nat 2 + k)%nat) /\
    array s' = array letters /\ well_formed s'.
Proof.
  apply (SliceOpsSpec.slice_expr_elems letters 2 5);
    [unfold well_formed; simpl; lia | lia | simpl; lia].
Defined.


Lemma slice_cut_and_restore_witness :
  exists s1,
    slice_expr letters None (Some 2) = Ok s1 /\ len s1 = 2 /\
    slice_expr s1 None (Some (len letters)) = Ok letters /\
    slice_expr letters None None = Ok letters.
Proof.
  apply (SliceOpsSpec.slice_cut_and_restore letters 2);
    [unfold well_formed; simpl; lia | simpl; lia].
Defined.

Lemma copy_spec_witness :
  snd (copy three_zeros one_two) = Z.min (len three_zeros) (len one_two) /\
  elems (fst (copy three_zeros one_two))
    = take (Z.to_nat (snd (copy three_zeros one_two))) (elems one_two)
      ++ drop (Z.to_nat (snd (copy three_zeros one_two))) (elems three_zeros) /\
  len (fst (copy three_zeros one_two)) = len three_zeros /\
  cap (fst (copy three_zeros one_two)) = cap three_zeros /\
  well_formed (fst (copy three_zeros one_two)).
Proof.
  apply (SliceGrowSpec.copy_spec three_zeros one_two);
    unfold well_formed; simpl; lia.
Defined.

Lemma grow_spec_witness :
  exists t,
    grow 0 one_two = Ok t /\ elems t = elems one_two /\ len t = len one_two /\
    cap t = (cap one_two + 1) * 2 /\ cap one_two < cap t /\ well_formed t.
Proof.
  apply (SliceGrowSpec.grow_spec 0 one_two);
    [unfold well_formed; simpl; lia | vm_compute; discriminate].
Defined.



Lemma MapKeys_spec_witness :
  MapKeys 0 double_or_need [4; 1; 2] powers
  = Ok {| array := [4; 1; 2]; off := 0;
          len := Z.of_nat (size powers); cap := Z.of_nat (size powers) |}.
Proof.
  apply (SliceGrowSpec.MapKeys_spec 0 double_or_need powers [4; 1; 2]).
  apply (bool_decide_unpack _). vm_compute. exact I.
Defined.

Lemma sum_prints_len_and_total_witness :
  wrap (sum_Z [1; 2; 3]) = sum_Z [1; 2; 3] /\
  sum [3; 1; 2] quiet_process = sum [1; 2; 3] quiet_process.
Proof.
  split.
  - apply (FunctionsSpec.sum_prints_len_and_total [1; 2; 3] quiet_process).
    vm_compute. split; discriminate.
  - apply (FunctionsSpec.sum_prints_len_and_total [1; 2; 3] quiet_process).
    apply (bool_decide_unpack _). vm_compute. exact I.
Defined.

Lemma zeroval_changes_nothing_witness :
  exists h', zeroval 7 one_variable = Ok (tt, h') /\
             h' !! 1%positive = Some 5.
Proof.
  destruct (FunctionsSpec.zeroval_changes_nothing one_variable 7)
    as (h' & Hrun & Hframe).
  exists h'. split; [exact Hrun|].
  etransitivity; [apply (Hframe 1%positive)|reflexivity].
  vm_compute. by eexists.
Defined.

Lemma zeroptr_zeroes_target_witness :
  exists h', zeroptr (Some 1%positive) one_variable = Ok (tt, h') /\
             h' !! 1%positive = Some 0 /\
             (forall q, q <> 1%positive -> h' !! q = one_variable !! q) /\
             dom h' = dom one_variable.
Proof.
  apply (proj1 (FunctionsSpec.zeroptr_zeroes_target one_variable)).
  vm_compute. by eexists.
Defined.

Lemma newPerson_is_fresh_witness :
  exists p h',
    newPerson "Jon" one_person = Ok (p, h') /\
    h' !! 1%positive = Some {| name := "Bob"; age := 20 |}.
Proof.
  destruct (FunctionsSpec.newPerson_is_fresh one_person "Jon")
    as (p & Hrun & _ & Hframe).
  exists p. eexists. split; [exact Hrun|].
  etransitivity; [apply (Hframe 1%positive)|reflexivity].
  vm_compute. by eexists.
Defined.

Lemma rect_area_perim_witness :
  perim ten_by_five = 30 /\ area (Some 1%positive) one_rect = Ok (50, one_rect).
Proof.
  destruct (FunctionsSpec.rect_area_perim ten_by_five one_rect 1%positive)
    as (_ & Hperim & _ & Harea & _).
  split.
  - apply Hperim. vm_compute. split; discriminate.
  - destruct (Harea eq_refl) as [_ Hexact]. apply Hexact.
    vm_compute. split; discriminate.
Defined.

Lemma describe_inj_witness : {| num := 1 |} = {| num := 1 |}.
Proof.
  apply (FunctionsSpec.describe_inj {| num := 1 |} {| num := 1 |}
           {| container_base := {| num := 1 |}; str := "some name" |}).
  reflexivity.
Defined.

Lemma argError_Error_inj_witness :
  {| Errors.arg := 42; Errors.prob := "can't work with it" |}
  = {| Errors.arg := 42; Errors.prob := "can't work with it" |}.
Proof.
  apply (FunctionsSpec.argError_Error_inj
           {| Errors.arg := 42; Errors.prob := "can't work with it" |}
           {| Errors.arg := 42; Errors.prob := "can't work with it" |}).
  reflexivity.
Defined.

Lemma results_are_the_doubled_jobs_witness :
  WorkerPoolAccount.received (fst (WorkerPool.run WorkerPool.main_first))
    ≡ₚ [2; 4; 6; 8; 10] /\
  WorkerPoolAccount.printed (fst (WorkerPool.run WorkerPool.main_first))
  = WorkerPool.result_line
      <$> WorkerPoolAccount.received (fst (WorkerPool.run WorkerPool.main_first)).
Proof.
  apply (WorkerPoolAccountSpec.results_are_the_doubled_jobs
           WorkerPool.main_first).
  vm_compute. reflexivity.
Defined.

Lemma sends_never_wait_witness :
  WorkerPool.send
    (WorkerPool.jobs_chan (snd (WorkerPool.run WorkerPool.main_first))) 7
  <> WorkerPool.SendBlocks.
Proof.
  apply (WorkerPoolAccountSpec.sends_never_wait WorkerPool.main_first 7).
Defined.

Lemma chat_sender_never_waits_witness :
  Chat.send (Chat.messages (snd (Chat.run [Chat.GMain; Chat.GMain;
                                           Chat.GProducer])))
    (Chat.message 2)
  <> Chat.SendBlocks.
Proof.
  apply (ChatSpec.chat_sender_never_waits
           [Chat.GMain; Chat.GMain; Chat.GProducer] (Chat.message 2)).
Defined.


Lemma pool_sends_never_wait_witness :
  Pool.send (Pool.requests (snd (Pool.run pool_schedule))) (Pool.request 1)
  <> Pool.SendBlocks.
Proof.
  apply (proj1 (PoolSpec.pool_sends_never_wait pool_schedule) 1);
    [vm_compute; reflexivity | lia].
Defined.

End Witnesses.
